(** * Deemable: the static Facebook archive builder (facebook/build_archive.py)

    A shallow embedding of the functions of [build_archive.py] that load the
    export, normalise its text, resolve and copy media and render posts,
    followed by the properties of the specification checked against them.

    Conventions of the embedding.
    - A Python [str] is the list of its Unicode code points ([pystr]).
    - The values [json.load] returns are the type [pyval]. A float is kept
      by its value; the only thing the embedded code can do with one without
      raising is to test whether it is zero and to sort by it.
    - A Python exception is a [Raise] in the [result] monad. *)

From Stdlib Require Import ZArith Lia List Sorting.Sorted.
From stdpp Require Import base option list strings pretty gmap.

Local Open Scope Z_scope.

(** ** Python strings *)

Abbreviation pystr := (list Z).

(** An ASCII literal as a Python string. *)
Definition str (s : string) : pystr :=
  (fun a => Z.of_N (Ascii.N_of_ascii a)) <$> String.list_ascii_of_string s.

(** The double quote character, U+0022. *)
Definition dq : pystr := [34].

(** [s.replace(old, new)] for a one-character [old]. *)
Fixpoint replace_char (old : Z) (new : pystr) (s : pystr) : pystr :=
  match s with
  | [] => []
  | c :: t => (if c =? old then new else [c]) ++ replace_char old new t
  end.

(** [s.startswith(p)] *)
Fixpoint startswith (p s : pystr) : bool :=
  match p, s with
  | [], _ => true
  | a :: p', b :: s' => (a =? b) && startswith p' s'
  | _ :: _, [] => false
  end.

(** [s.endswith(p)] *)
Definition endswith (p s : pystr) : bool := startswith (rev p) (rev s).

(** [p in s] for two strings: [p] occurs as a substring of [s]. *)
Fixpoint str_contains (p s : pystr) : bool :=
  startswith p s ||
  match s with
  | [] => false
  | _ :: t => str_contains p t
  end.

(** ** Python values and exceptions *)

(** A float, by its value: not a number, an infinity, or the finite value
    [mantissa * 2 ^ exponent]. *)
Inductive pyfloat :=
| FNaN
| FInf (negative : bool)
| FFinite (mantissa exponent : Z).

#[warnings="-register-all"]
Inductive pyval :=
| PNone
| PBool (b : bool)
| PInt (n : Z)
| PStr (s : pystr)
| PList (l : list pyval)
| PDict (items : list (pystr * pyval))
| PFloat (x : pyfloat).

(** The exceptions the embedded code can raise. [OutsideModel] is none of
    them: it stands where the model gives no outcome, because what Python
    does there depends on the comparisons its sort happens to make. *)
Inductive exn := AttributeError | TypeError | KeyError | OutsideModel.

Inductive result (A : Type) :=
| Ok (a : A)
| Raise (e : exn).
Arguments Ok {A} a.
Arguments Raise {A} e.

Definition bind {A B} (m : result A) (k : A -> result B) : result B :=
  match m with
  | Ok a => k a
  | Raise e => Raise e
  end.

Notation "'let*' x ':=' m 'in' k" := (bind m (fun x => k))
  (at level 10, x pattern, m at level 100, k at level 200).

(** Truth value of an object, as tested by [if x:] and [if not x:]. *)
Definition truthy (v : pyval) : bool :=
  match v with
  | PNone => false
  | PBool b => b
  | PInt n => negb (n =? 0)
  | PStr s => negb (bool_decide (s = []))
  | PList l => match l with [] => false | _ => true end
  | PDict d => match d with [] => false | _ => true end
  | PFloat (FFinite m _) => negb (m =? 0)
  | PFloat _ => true
  end.

(** Lookup in a dict, whose items are kept in insertion order with distinct
    keys. *)
Fixpoint dict_lookup (k : pystr) (d : list (pystr * pyval)) : option pyval :=
  match d with
  | [] => None
  | (k', v) :: d' => if bool_decide (k' = k) then Some v else dict_lookup k d'
  end.

(** [x.get(k, default)]: only dicts have a [get] method. *)
Definition py_get (x : pyval) (k : pystr) (dflt : pyval) : result pyval :=
  match x with
  | PDict d => Ok (default dflt (dict_lookup k d))
  | _ => Raise AttributeError
  end.

(** Iteration, as by [for x in v:]. A string yields its characters, a dict
    its keys; [None], booleans and numbers are not iterable. *)
Definition py_iter (v : pyval) : result (list pyval) :=
  match v with
  | PList l => Ok l
  | PStr s => Ok ((fun c => PStr [c]) <$> s)
  | PDict d => Ok ((fun kv => PStr kv.1) <$> d)
  | _ => Raise TypeError
  end.

(** [k in v] for a string [k]: key membership in a dict, element membership
    in a list, substring test in a string. *)
Definition py_contains (k : pystr) (v : pyval) : result bool :=
  match v with
  | PDict d => Ok (bool_decide (is_Some (dict_lookup k d)))
  | PList l =>
      Ok (existsb (fun x => match x with
                            | PStr s => bool_decide (s = k)
                            | _ => false
                            end) l)
  | PStr s => Ok (str_contains k s)
  | _ => Raise TypeError
  end.

(** [v[k]] for a string [k]: lists and strings take integer indices only. *)
Definition py_getitem (v : pyval) (k : pystr) : result pyval :=
  match v with
  | PDict d =>
      match dict_lookup k d with
      | Some x => Ok x
      | None => Raise KeyError
      end
  | _ => Raise TypeError
  end.

(** Lexicographic [<] on strings, by code point. *)
Definition str_ltb (a b : pystr) : bool :=
  match list_compare Z.compare a b with
  | Lt => true
  | _ => false
  end.

(** [a < b] as [list.sort] uses it on the keys. Integers are ordered
    ([bool] is a subtype of [int]) and so are strings; [None] and dicts are
    unordered, and so are values of different kinds: [TypeError]. Python
    also orders floats, where a NaN is neither below nor above anything,
    and compares two lists element-wise, which raises or not with the
    elements it reaches; the order a sort leaves such keys in, and whether
    it raises, depend on the pairs it compares, and the model gives no
    outcome for them. *)
Definition py_lt (a b : pyval) : result bool :=
  match a, b with
  | PInt x, PInt y => Ok (x <? y)
  | PInt x, PBool y => Ok (x <? Z.b2z y)
  | PBool x, PInt y => Ok (Z.b2z x <? y)
  | PBool x, PBool y => Ok (Z.b2z x <? Z.b2z y)
  | PStr x, PStr y => Ok (str_ltb x y)
  | PList _, PList _ => Raise OutsideModel
  | PFloat _, (PBool _ | PInt _ | PFloat _) => Raise OutsideModel
  | (PBool _ | PInt _), PFloat _ => Raise OutsideModel
  | _, _ => Raise TypeError
  end.

(** ** Text normalizer *)

(** [text.encode('latin-1')]: one byte per character, [None] standing for
    [UnicodeEncodeError] when a character is above U+00FF. *)
Definition latin1_encode (s : pystr) : option (list Z) :=
  if forallb (fun c => (0 <=? c) && (c <? 256)) s then Some s else None.

Definition is_cont (b : Z) : bool := (0x80 <=? b) && (b <=? 0xBF).

(** The admissible second byte of a three-byte sequence: no overlong form
    after E0, no surrogate after ED. *)
Definition second3 (b0 b1 : Z) : bool :=
  if b0 =? 0xE0 then (0xA0 <=? b1) && (b1 <=? 0xBF)
  else if b0 =? 0xED then (0x80 <=? b1) && (b1 <=? 0x9F)
  else is_cont b1.

(** The admissible second byte of a four-byte sequence: no overlong form
    after F0, nothing above U+10FFFF after F4. *)
Definition second4 (b0 b1 : Z) : bool :=
  if b0 =? 0xF0 then (0x90 <=? b1) && (b1 <=? 0xBF)
  else if b0 =? 0xF4 then (0x80 <=? b1) && (b1 <=? 0x8F)
  else is_cont b1.

(** [bytes.decode('utf-8')] with the default strict error handler, [None]
    standing for [UnicodeDecodeError]. *)
Fixpoint utf8_decode (bs : list Z) : option pystr :=
  match bs with
  | [] => Some []
  | b0 :: r0 =>
      if (0 <=? b0) && (b0 <? 0x80) then
        cons b0 <$> utf8_decode r0
      else if (0xC2 <=? b0) && (b0 <=? 0xDF) then
        match r0 with
        | b1 :: r1 =>
            if is_cont b1
            then cons ((b0 - 0xC0) * 64 + (b1 - 0x80)) <$> utf8_decode r1
            else None
        | _ => None
        end
      else if (0xE0 <=? b0) && (b0 <=? 0xEF) then
        match r0 with
        | b1 :: b2 :: r2 =>
            if second3 b0 b1 && is_cont b2
            then cons ((b0 - 0xE0) * 4096 + (b1 - 0x80) * 64 + (b2 - 0x80))
                   <$> utf8_decode r2
            else None
        | _ => None
        end
      else if (0xF0 <=? b0) && (b0 <=? 0xF4) then
        match r0 with
        | b1 :: b2 :: b3 :: r3 =>
            if second4 b0 b1 && is_cont b2 && is_cont b3
            then cons ((b0 - 0xF0) * 262144 + (b1 - 0x80) * 4096
                       + (b2 - 0x80) * 64 + (b3 - 0x80))
                   <$> utf8_decode r3
            else None
        | _ => None
        end
      else None
  end.

(** [str.encode('utf-8')] of one scalar value, the inverse the decoder is
    checked against. *)
Definition utf8_encode_char (c : Z) : list Z :=
  if c <? 0x80 then [c]
  else if c <? 0x800 then [0xC0 + c / 64; 0x80 + c mod 64]
  else if c <? 0x10000 then
    [0xE0 + c / 4096; 0x80 + (c / 64) mod 64; 0x80 + c mod 64]
  else
    [0xF0 + c / 262144; 0x80 + (c / 4096) mod 64; 0x80 + (c / 64) mod 64;
     0x80 + c mod 64].

Definition utf8_encode (s : pystr) : list Z := s ≫= utf8_encode_char.

(** A Unicode scalar value: a code point that is not a surrogate. *)
Definition is_scalar (c : Z) : bool :=
  (0 <=? c) && (c <=? 0x10FFFF) && negb ((0xD800 <=? c) && (c <=? 0xDFFF)).

(** [decode_facebook_text], lines 20-27. The two exceptions a string can
    raise on the way are caught; a value without an [encode] method raises
    [AttributeError]. *)
Definition decode_facebook_text (text : pyval) : result pystr :=
  match text with
  | PNone => Ok []
  | PStr s =>
      match latin1_encode s with
      | None => Ok s
      | Some bs =>
          match utf8_decode bs with
          | None => Ok s
          | Some t => Ok t
          end
      end
  | _ => Raise AttributeError
  end.

(** *** Regular expressions, as far as [linkify] uses them *)

Inductive regex :=
| RLit (s : pystr)               (* literal characters *)
| ROpt (r : regex)               (* [r?], greedy *)
| RSeq (r1 r2 : regex)           (* [r1 r2] *)
| RPlusNot (excluded : Z -> bool).  (* [[^...]+], greedy *)

(** Greedy [[^...]*] followed by the continuation [k], giving characters
    back one at a time when [k] fails. *)
Fixpoint star_not (excluded : Z -> bool) (s : pystr)
    (k : pystr -> option pystr) : option pystr :=
  match s with
  | [] => k []
  | c :: t =>
      if excluded c then k s
      else match star_not excluded t k with
           | Some rest => Some rest
           | None => k s
           end
  end.

(** Backtracking match of [r] at the start of [s], then of the continuation
    [k] on what is left; the result is the input left over at the end. *)
Fixpoint rmatch (r : regex) (s : pystr) (k : pystr -> option pystr)
    : option pystr :=
  match r with
  | RLit l => if startswith l s then k (drop (length l) s) else None
  | ROpt r' =>
      match rmatch r' s k with
      | Some rest => Some rest
      | None => k s
      end
  | RSeq r1 r2 => rmatch r1 s (fun s' => rmatch r2 s' k)
  | RPlusNot excluded =>
      match s with
      | [] => None
      | c :: t => if excluded c then None else star_not excluded t k
      end
  end.

(** The match of the pattern at the start of [s], if any: the matched text
    and the rest of the input. *)
Definition re_match (pattern : regex) (s : pystr) : option (pystr * pystr) :=
  match rmatch pattern s Some with
  | Some rest => Some (take (length s - length rest)%nat s, rest)
  | None => None
  end.

(** The pieces [re.sub] cuts the text into: a character copied as it is, or
    a match to be replaced. *)
Inductive chunk :=
| Plain (c : Z)
| Matched (m : pystr).

(** The left-to-right scan of [re.sub]: non-overlapping matches, each found
    at the first position after the previous one where the pattern matches.
    [skip] counts the characters of the current match still to be passed.
    Patterns that can match the empty string are outside the model. *)
Fixpoint re_scan (pattern : regex) (skip : nat) (s : pystr) : list chunk :=
  match s with
  | [] => []
  | c :: t =>
      match skip with
      | S n => re_scan pattern n t
      | O =>
          match re_match pattern s with
          | Some ((_ :: m') as m, _) =>
              Matched m :: re_scan pattern (length m') t
          | _ => Plain c :: re_scan pattern O t
          end
      end
  end.

(** A replacement template: literal text and references to group 1. *)
Inductive template_item :=
| TText (s : pystr)
| TGroup1.

Definition expand (template : list template_item) (m : pystr) : pystr :=
  template ≫= (fun item => match item with TText s => s | TGroup1 => m end).

Definition render_chunk (template : list template_item) (c : chunk) : pystr :=
  match c with
  | Plain x => [x]
  | Matched m => expand template m
  end.

(** [re.sub(pattern, template, text)] for a pattern whose only group is the
    whole pattern. *)
Definition re_sub (pattern : regex) (template : list template_item)
    (text : pystr) : pystr :=
  re_scan pattern 0 text ≫= render_chunk template.

(** [\s] on [str] patterns: the characters for which [str.isspace] holds. *)
Definition is_space (c : Z) : bool :=
  ((0x09 <=? c) && (c <=? 0x0D)) || ((0x1C <=? c) && (c <=? 0x20))
  || (c =? 0x85) || (c =? 0xA0) || (c =? 0x1680)
  || ((0x2000 <=? c) && (c <=? 0x200A))
  || (c =? 0x2028) || (c =? 0x2029) || (c =? 0x202F) || (c =? 0x205F)
  || (c =? 0x3000).

(** The set the URL pattern excludes: whitespace and
    [< > dq { } | \ ^ ` [ ]]. *)
Definition url_excluded (c : Z) : bool :=
  is_space c
  || bool_decide (c ∈ [60; 62; 34; 123; 125; 124; 92; 94; 96; 91; 93]).

(** [(https?://[^\s<>dq{}|\\^`\[\]]+)], line 47. *)
Definition url_pattern : regex :=
  RSeq (RLit (str "http"))
    (RSeq (ROpt (RLit (str "s")))
       (RSeq (RLit (str "://")) (RPlusNot url_excluded))).

(** The replacement of line 48. *)
Definition link_template : list template_item :=
  [TText (str "<a href=" ++ dq); TGroup1;
   TText (dq ++ str " target=" ++ dq ++ str "_blank" ++ dq ++ str " rel="
          ++ dq ++ str "noopener" ++ dq ++ str ">");
   TGroup1; TText (str "</a>")].

(** [linkify], lines 43-48. *)
Definition linkify (text : pystr) : pystr :=
  if bool_decide (text = []) then []
  else re_sub url_pattern link_template text.

(** [html.escape(s)] of the standard library, with its default
    [quote=True]: five replacements, the ampersand first. *)
Definition html_escape (s : pystr) : pystr :=
  let s := replace_char 38 (str "&amp;") s in
  let s := replace_char 60 (str "&lt;") s in
  let s := replace_char 62 (str "&gt;") s in
  let s := replace_char 34 (str "&quot;") s in
  replace_char 39 (str "&#x27;") s.

(** [html.escape] applied to a value: only strings have [replace]. *)
Definition html_escape_val (v : pyval) : result pystr :=
  match v with
  | PStr s => Ok (html_escape s)
  | _ => Raise AttributeError
  end.

(** ** Data loader *)

(** [load_json], lines 50-57. A file is given by what [json.load] makes of
    it: [None] when it cannot be opened or is not JSON, in which case the
    exception is caught and [None] returned. *)
Definition load_json (file : option pyval) : pyval :=
  match file with
  | Some v => v
  | None => PNone
  end.

Record media_ref := {
  media_uri : pyval;
  media_description : pystr
}.

Record post := {
  post_timestamp : pyval;
  post_title : pystr;
  post_text : pystr;
  post_media : list media_ref;
  post_external_url : pyval
}.

(** Lines 100-103: the text of the first [data] entry that has a [post]
    key; the empty string when there is none. *)
Fixpoint extract_text (ds : list pyval) : result pystr :=
  match ds with
  | [] => Ok []
  | d :: ds' =>
      let* found := py_contains (str "post") d in
      if found : bool then
        let* v := py_getitem d (str "post") in
        decode_facebook_text v
      else extract_text ds'
  end.

(** Lines 107-115: one attachment's [data] entries, appending to
    [post['media']] and assigning [post['external_url']]. *)
Fixpoint scan_data (ds : list pyval) (media : list media_ref) (url : pyval)
    : result (list media_ref * pyval) :=
  match ds with
  | [] => Ok (media, url)
  | d :: ds' =>
      let* has_media := py_contains (str "media") d in
      let* media' :=
        if has_media : bool then
          let* m := py_getitem d (str "media") in
          let* uri := py_get m (str "uri") PNone in
          let* raw := py_get m (str "description") (PStr []) in
          let* description := decode_facebook_text raw in
          Ok (media ++ [{| media_uri := uri;
                           media_description := description |}])
        else Ok media in
      let* has_link := py_contains (str "external_context") d in
      let* url' :=
        if has_link : bool then
          let* c := py_getitem d (str "external_context") in
          py_get c (str "url") PNone
        else Ok url in
      scan_data ds' media' url'
  end.

(** Lines 106-115: the loop over the attachments. *)
Fixpoint scan_attachments (attachments : list pyval)
    (media : list media_ref) (url : pyval)
    : result (list media_ref * pyval) :=
  match attachments with
  | [] => Ok (media, url)
  | attachment :: rest =>
      let* data := py_get attachment (str "data") (PList []) in
      let* ds := py_iter data in
      let* (media', url') := scan_data ds media url in
      scan_attachments rest media' url'
  end.

(** Lines 91-115: the post built from one raw item. *)
Definition parse_post (item : pyval) : result post :=
  let* timestamp := py_get item (str "timestamp") (PInt 0) in
  let* raw_title := py_get item (str "title") (PStr []) in
  let* title := decode_facebook_text raw_title in
  let* data := py_get item (str "data") (PList []) in
  let* ds := py_iter data in
  let* text := extract_text ds in
  let* attachments := py_get item (str "attachments") (PList []) in
  let* atts := py_iter attachments in
  let* (media, url) := scan_attachments atts [] PNone in
  Ok {| post_timestamp := timestamp;
        post_title := title;
        post_text := text;
        post_media := media;
        post_external_url := url |}.

(** Lines 90-117: the loop over the items, appending to [posts]. *)
Fixpoint parse_posts (items : list pyval) (posts : list post)
    : result (list post) :=
  match items with
  | [] => Ok posts
  | item :: rest =>
      let* p := parse_post item in
      parse_posts rest (posts ++ [p])
  end.

(** [list.sort(key=key, reverse=True)]: a stable sort into descending
    order that uses [<] on the keys only, written as an insertion sort.
    Elements with equal keys keep their order. A comparison that raises
    makes the sort raise. Python's own algorithm makes other comparisons.
    Where this sort returns, every key has been compared with another one
    and [py_lt] orders them all: they are all integers or all strings, and
    a stable sort of such keys has one result. Where it raises [TypeError],
    two of the keys are of kinds that cannot be compared, and among two or
    more elements Python compares the first key of another kind with one
    before it. With floats or lists among keys of one kind the model gives
    no outcome. *)
Fixpoint insert_desc {A} (key : A -> pyval) (x : A) (sorted : list A)
    : result (list A) :=
  match sorted with
  | [] => Ok [x]
  | y :: rest =>
      let* lt := py_lt (key x) (key y) in
      if lt : bool then
        let* rest' := insert_desc key x rest in
        Ok (y :: rest')
      else Ok (x :: y :: rest)
  end.

Fixpoint sort_reverse {A} (key : A -> pyval) (l : list A) : result (list A) :=
  match l with
  | [] => Ok []
  | x :: rest =>
      let* sorted := sort_reverse key rest in
      insert_desc key x sorted
  end.

(** [load_posts], lines 82-121, on the contents of the posts file. *)
Definition load_posts (posts_file : option pyval) : result (list post) :=
  let data := load_json posts_file in
  if negb (truthy data) then Ok []
  else
    let* items := py_iter data in
    let* posts := parse_posts items [] in
    sort_reverse post_timestamp posts.

Record photo := {
  photo_uri : pyval;
  photo_description : pystr;
  photo_timestamp : pyval
}.

Record album := {
  album_name : pystr;
  album_description : pystr;
  album_photos : list photo;
  album_cover : pyval
}.

(** Lines 143-148: the loop over the photos, appending to
    [album['photos']]. *)
Fixpoint parse_photos (ps : list pyval) (photos : list photo)
    : result (list photo) :=
  match ps with
  | [] => Ok photos
  | p :: rest =>
      let* uri := py_get p (str "uri") PNone in
      let* raw := py_get p (str "description") (PStr []) in
      let* description := decode_facebook_text raw in
      let* timestamp := py_get p (str "creation_timestamp") (PInt 0) in
      parse_photos rest
        (photos ++ [{| photo_uri := uri;
                       photo_description := description;
                       photo_timestamp := timestamp |}])
  end.

(** Lines 136-153: the album built from the contents of one album file. *)
Definition parse_album (data : pyval) : result album :=
  let* raw_name := py_get data (str "name") (PStr (str "Untitled Album")) in
  let* name := decode_facebook_text raw_name in
  let* raw_description := py_get data (str "description") (PStr []) in
  let* description := decode_facebook_text raw_description in
  let* photos_val := py_get data (str "photos") (PList []) in
  let* ps := py_iter photos_val in
  let* photos := parse_photos ps [] in
  let* cover_photo := py_get data (str "cover_photo") PNone in
  let* cover :=
    if truthy cover_photo then
      let* c := py_getitem data (str "cover_photo") in
      py_get c (str "uri") PNone
    else
      match photos with
      | first :: _ => Ok (photo_uri first)
      | [] => Ok PNone
      end in
  Ok {| album_name := name;
        album_description := description;
        album_photos := photos;
        album_cover := cover |}.

(** Lines 131-156: the loop over the album files, given in the order of
    [sorted(album_dir.glob(...))]. *)
Fixpoint load_album_files (files : list (option pyval)) (albums : list album)
    : result (list album) :=
  match files with
  | [] => Ok albums
  | file :: rest =>
      let data := load_json file in
      if negb (truthy data) then load_album_files rest albums
      else
        let* a := parse_album data in
        match album_photos a with
        | [] => load_album_files rest albums
        | _ :: _ => load_album_files rest (albums ++ [a])
        end
  end.

(** [load_albums], lines 123-158. [album_dir] is [None] when the directory
    does not exist. *)
Definition load_albums (album_dir : option (list (option pyval)))
    : result (list album) :=
  match album_dir with
  | None => Ok []
  | Some files => load_album_files files []
  end.

(** ** Media resolver *)

(** [s.split(sep)] for a one-character separator. *)
Fixpoint split_on (sep : Z) (s : pystr) : list pystr :=
  match s with
  | [] => [[]]
  | c :: t =>
      if c =? sep then [] :: split_on sep t
      else match split_on sep t with
           | w :: ws => (c :: w) :: ws
           | [] => [[c]]
           end
  end.

(** The components of a POSIX path: what is between the slashes, without
    the empty pieces and the [.] pieces. *)
Definition path_parts (s : pystr) : list pystr :=
  filter (fun x => x ≠ [] ∧ x ≠ str ".") (split_on 47 s).

(** [Path(s).name]: the last component, empty when there is none. *)
Definition path_name (s : pystr) : pystr := default [] (last (path_parts s)).

(** [get_media_path], lines 59-65. [Path(uri)] takes a string. *)
Definition get_media_path (uri : pyval) : result (option pystr) :=
  if negb (truthy uri) then Ok None
  else match uri with
       | PStr s => Ok (Some (str "media/" ++ path_name s))
       | _ => Raise TypeError
       end.

(** The suffixes of line 75. *)
Definition media_suffixes : list pystr :=
  [str ".jpg"; str ".jpeg"; str ".png"; str ".gif"; str ".mp4"; str ".webp"].

(** [file.endswith((...))] with the tuple of line 75. *)
Definition is_media_file (file : pystr) : bool :=
  existsb (fun suffix => endswith suffix file) media_suffixes.

(** Lines 74-80: the files of one directory of the walk. [output] maps the
    names present in the output directory to their contents; [copied] is
    the list of the names printed as copied. *)
Fixpoint copy_files (files : list (pystr * list Z))
    (output : gmap pystr (list Z)) (copied : list pystr)
    : gmap pystr (list Z) * list pystr :=
  match files with
  | [] => (output, copied)
  | (file, contents) :: rest =>
      if is_media_file file then
        match output !! file with
        | Some _ => copy_files rest output copied
        | None => copy_files rest (<[file := contents]> output) (copied ++ [file])
        end
      else copy_files rest output copied
  end.

(** Lines 73-80: the loop over [os.walk], one entry per directory: its path
    and its files. *)
Fixpoint copy_walk (walk : list (pystr * list (pystr * list Z)))
    (output : gmap pystr (list Z)) (copied : list pystr)
    : gmap pystr (list Z) * list pystr :=
  match walk with
  | [] => (output, copied)
  | (_, files) :: rest =>
      let '(output', copied') := copy_files files output copied in
      copy_walk rest output' copied'
  end.

(** [copy_media_files], lines 67-80. [media_source] is [None] when the
    source directory does not exist, [media_output] when the output
    directory does not exist yet. The result is the output directory and
    the names copied. *)
Definition copy_media_files
    (media_source : option (list (pystr * list (pystr * list Z))))
    (media_output : option (gmap pystr (list Z)))
    : gmap pystr (list Z) * list pystr :=
  let output := default ∅ media_output in
  match media_source with
  | None => (output, [])
  | Some walk => copy_walk walk output []
  end.

(** ** Page renderer *)

(** An ASCII literal of a template, in which the apostrophe stands for the
    double quote. *)
Definition tpl (s : string) : pystr :=
  (fun c => if c =? 39 then 34 else c) <$> str s.

(** The media element of lines 596-600. *)
Definition media_element (media_path alt : pystr) : pystr :=
  tpl "
            <div class='post-media'>
                <img src='" ++ media_path ++ tpl "' alt='" ++ alt
  ++ tpl "' loading='lazy'>
            </div>
            ".

(** Lines 592-600: the loop over the media of a post. *)
Fixpoint post_media_html (ms : list media_ref) (media_html : pystr)
    : result pystr :=
  match ms with
  | [] => Ok media_html
  | m :: rest =>
      let* media_path := get_media_path (media_uri m) in
      match media_path with
      | Some p =>
          if truthy (PStr p) then
            post_media_html rest
              (media_html
               ++ media_element p (html_escape (media_description m)))
          else post_media_html rest media_html
      | None => post_media_html rest media_html
      end
  end.

(** Lines 602-610. *)
Definition post_link_html (external_url : pyval) : result pystr :=
  if truthy external_url then
    let* href := html_escape_val external_url in
    let* label := html_escape_val external_url in
    Ok (tpl "
        <div class='post-link'>
            <a href='" ++ href ++ tpl "' target='_blank' rel='noopener'>
                " ++ label ++ tpl "
            </a>
        </div>
        ")
  else Ok [].

(** Lines 612-614: the body text is escaped once, then linkified. *)
Definition post_text_html (text : pystr) : pystr :=
  if truthy (PStr text) then
    str "<p>" ++ linkify (html_escape text) ++ str "</p>"
  else [].

Section Render.

(** [datetime.fromtimestamp(ts).strftime(...)] of line 34, which depends on
    the time zone of the machine. *)
Variable strftime_long : pyval -> result pystr.

(** [format_timestamp], lines 29-34. *)
Definition format_timestamp (ts : pyval) : result pystr :=
  if negb (truthy ts) then Ok [] else strftime_long ts.

(** [generate_post_html], lines 590-631. *)
Definition generate_post_html (p : post) (profile_pic_path : pystr)
    : result pystr :=
  let* media_html := post_media_html (post_media p) [] in
  let* link_html := post_link_html (post_external_url p) in
  let text_html := post_text_html (post_text p) in
  let* date := format_timestamp (post_timestamp p) in
  Ok (tpl "
    <article class='post'>
        <div class='post-header'>
            <img src='" ++ profile_pic_path
      ++ tpl "' alt='Deemable Tech' class='post-avatar'>
            <div class='post-meta'>
                <h3>Deemable Tech</h3>
                <span class='date'>" ++ date ++ tpl "</span>
            </div>
        </div>
        <div class='post-content'>
            " ++ text_html ++ tpl "
        </div>
        " ++ media_html ++ tpl "
        " ++ link_html ++ tpl "
    </article>
    ").

End Render.

(** Lines 861-863 of [main]: the album pages written, each the file name
    and the album rendered into it. *)
Definition album_pages (albums : list album) : list (pystr * album) :=
  imap (fun i a => (str "album-" ++ str (pretty i) ++ str ".html", a)) albums.

(** ** Page renderer: the album pages *)

(** An ASCII literal of a template that holds apostrophes, in which the
    circumflex stands for the double quote. *)
Definition tplq (s : string) : pystr :=
  (fun c => if c =? 94 then 34 else c) <$> str s.

(** The photo element of lines 718-722. *)
Definition photo_item (photo_path caption escaped_caption : pystr) : pystr :=
  tplq "
            <div class=^photo-item^ onclick=^openLightbox('" ++ photo_path
  ++ str "', '" ++ escaped_caption ++ tplq "')^>
                <img src=^" ++ photo_path ++ tplq "^ alt=^" ++ caption
  ++ tplq "^ loading=^lazy^>
            </div>
            ".

(** Lines 712-722 of [generate_album_page]: the loop over the photos of an
    album. *)
Fixpoint album_photos_html (photos : list photo) (photos_html : pystr)
    : result pystr :=
  match photos with
  | [] => Ok photos_html
  | ph :: rest =>
      let* photo_path := get_media_path (photo_uri ph) in
      match photo_path with
      | Some p =>
          if truthy (PStr p) then
            let caption :=
              if truthy (PStr (photo_description ph))
              then html_escape (photo_description ph) else [] in
            let escaped_caption := replace_char 39 [92; 39] caption in
            album_photos_html rest
              (photos_html ++ photo_item p caption escaped_caption)
          else album_photos_html rest photos_html
      | None => album_photos_html rest photos_html
      end
  end.

(** The album card of lines 675-683. *)
Definition album_card (href cover_path name count : pystr) : pystr :=
  tpl "
        <a href='" ++ href ++ tpl "' class='album-card'>
            <img src='" ++ cover_path ++ tpl "' alt='" ++ name
  ++ tpl "' class='album-cover' loading='lazy'>
            <div class='album-info'>
                <h3>" ++ name ++ str "</h3>
                <p>" ++ count ++ str " photos</p>
            </div>
        </a>
        ".

(** A path in an f-string: [None] is written as the word. *)
Definition format_path (path : option pystr) : pystr :=
  match path with
  | Some p => p
  | None => str "None"
  end.

(** Lines 672-683 of [generate_photos_page]: the loop over the albums, [i]
    being the index [enumerate] has reached. *)
Fixpoint photos_page_albums_html (i : nat) (albums : list album)
    (albums_html : pystr) : result pystr :=
  match albums with
  | [] => Ok albums_html
  | a :: rest =>
      let* cover_path :=
        if truthy (album_cover a)
        then (let* path := get_media_path (album_cover a) in
              Ok (format_path path))
        else Ok (str "media/placeholder.jpg") in
      photos_page_albums_html (S i) rest
        (albums_html
         ++ album_card (str "album-" ++ str (pretty i) ++ str ".html")
              cover_path (html_escape (album_name a))
              (str (pretty (length (album_photos a)))))
  end.

(** ** Definitions used to state the properties *)

(** The characters [html.escape] rewrites: [& < > dq '] *)
Definition is_special (c : Z) : bool := bool_decide (c ∈ [38; 60; 62; 34; 39]).

(** What [html.escape] makes of one character. *)
Definition escape_char (c : Z) : pystr :=
  if c =? 38 then str "&amp;"
  else if c =? 60 then str "&lt;"
  else if c =? 62 then str "&gt;"
  else if c =? 34 then str "&quot;"
  else if c =? 39 then str "&#x27;"
  else [c].

(** ** Attachments, as a specification reads them *)

(** The items a value yields when iterated, none when it is not iterable. *)
Definition items_of (v : pyval) : list pyval :=
  match py_iter v with
  | Ok l => l
  | Raise _ => []
  end.

(** The [data] entries of all attachments of a raw item, in scan order. *)
Definition attachment_entries (item : pyval) : list pyval :=
  match py_get item (str "attachments") (PList []) with
  | Ok attachments =>
      items_of attachments ≫= (fun attachment =>
        match py_get attachment (str "data") (PList []) with
        | Ok data => items_of data
        | Raise _ => []
        end)
  | Raise _ => []
  end.

(** The [uri] of the media reference of a [data] entry that has one. *)
Definition entry_media_uri (d : pyval) : option pyval :=
  match d with
  | PDict items =>
      match dict_lookup (str "media") items with
      | Some (PDict m) => Some (default PNone (dict_lookup (str "uri") m))
      | _ => None
      end
  | _ => None
  end.

(** The [url] of the [external_context] of a [data] entry that has one,
    [None] when that context has no [url]. *)
Definition entry_link_url (d : pyval) : option pyval :=
  match d with
  | PDict items =>
      match dict_lookup (str "external_context") items with
      | Some (PDict c) => Some (default PNone (dict_lookup (str "url") c))
      | _ => None
      end
  | _ => None
  end.

(** All files of a walk, in the order the walk visits them. *)
Definition walk_files (walk : list (pystr * list (pystr * list Z)))
    : list (pystr * list Z) :=
  walk ≫= snd.

(** ** Matches, as a specification reads them *)

(** [re.fullmatch]: the pattern matches all of [u]. *)
Definition fullmatch (pattern : regex) (u : pystr) : bool :=
  match rmatch pattern u (fun rest => match rest with
                                      | [] => Some []
                                      | _ :: _ => None
                                      end) with
  | Some _ => true
  | None => false
  end.

(** The text a chunk was cut from. *)
Definition chunk_text (c : chunk) : pystr :=
  match c with
  | Plain x => [x]
  | Matched m => m
  end.

(** The scan of the URL pattern, one step at a time: at each position
    either no URL starts and the character is copied, or the match found
    there is cut out and the scan goes on behind it. *)
Inductive url_scan : pystr -> list chunk -> Prop :=
| url_scan_end : url_scan [] []
| url_scan_plain c t cs :
    re_match url_pattern (c :: t) = None ->
    url_scan t cs ->
    url_scan (c :: t) (Plain c :: cs)
| url_scan_match m r cs :
    m ≠ [] ->
    re_match url_pattern (m ++ r) = Some (m, r) ->
    url_scan r cs ->
    url_scan (m ++ r) (Matched m :: cs).

(** Where the run of admissible characters ends: at the end of the text or
    before an excluded character. *)
Definition run_ends (ex : Z -> bool) (rest : pystr) : Prop :=
  match rest with
  | [] => True
  | c :: _ => ex c = true
  end.

(** The anchor element of line 48 around a URL. *)
Definition anchor (url : pystr) : pystr :=
  tpl "<a href='" ++ url ++ tpl "' target='_blank' rel='noopener'>" ++ url
  ++ str "</a>".

(** The two ways the URL pattern can start. *)
Definition url_schemes : list pystr := [str "http://"; str "https://"].

(** ** The order of a reverse sort, as a specification reads it *)

(** [x] may stand before [y] in a descending order by [key]: the test
    [key x < key y] is false. *)
Definition before {A} (key : A -> pyval) (x y : A) : Prop :=
  py_lt (key x) (key y) = Ok false.

(** The post has the integer timestamp [n]. *)
Definition has_timestamp (n : Z) (p : post) : bool :=
  match post_timestamp p with
  | PInt m => m =? n
  | _ => false
  end.

(** The value is a JSON object. *)
Definition is_dict (v : pyval) : bool :=
  match v with
  | PDict _ => true
  | _ => false
  end.

(** The album a file contributes to the result, if any. *)
Definition kept_album (file : option pyval) : option album :=
  if truthy (load_json file) then
    match parse_album (load_json file) with
    | Ok a => match album_photos a with
              | [] => None
              | _ :: _ => Some a
              end
    | Raise _ => None
    end
  else None.

(** The source of the cover image on the card of an album whose cover is a
    string or absent. *)
Definition cover_src (a : album) : pystr :=
  match album_cover a with
  | PStr (c :: s) => str "media/" ++ path_name (c :: s)
  | _ => str "media/placeholder.jpg"
  end.

(** The card of an album, linking to the page of the album. *)
Definition card_of (page : pystr * album) : pystr :=
  album_card page.1 (cover_src page.2) (html_escape (album_name page.2))
    (str (pretty (length (album_photos page.2)))).

(** The caption of a photo on an album page. *)
Definition photo_caption (ph : photo) : pystr :=
  match photo_description ph with
  | [] => []
  | _ :: _ => html_escape (photo_description ph)
  end.

(** The media element of a reference whose [uri] is a string or absent:
    none for an absent or empty [uri]. *)
Definition media_html_of (m : media_ref) : pystr :=
  match media_uri m with
  | PStr (c :: s) =>
      media_element (str "media/" ++ path_name (c :: s))
        (html_escape (media_description m))
  | _ => []
  end.

(** ** Sample inputs *)

(** A posts file with three items: timestamps 5, absent and 7. *)
Definition sample_posts_file : pyval :=
  PList [PDict [(str "timestamp", PInt 5)];
         PDict [(str "title", PStr (str "untimed"))];
         PDict [(str "timestamp", PInt 7)]].

(** A posts file with a post from before 1970 and a post without a
    timestamp. *)
Definition early_posts_file : pyval :=
  PList [PDict [(str "timestamp", PInt (-5))]; PDict []].

Definition bare_post (timestamp : pyval) : post :=
  {| post_timestamp := timestamp;
     post_title := [];
     post_text := [];
     post_media := [];
     post_external_url := PNone |}.

(** An album file with a photo and no name. *)
Definition sample_album_items : list (pystr * pyval) :=
  [(str "photos", PList [PDict [(str "uri", PStr (str "photos/a.jpg"))]])].

Definition sample_album_file : pyval := PDict sample_album_items.

Definition sample_album : album :=
  {| album_name := str "Untitled Album";
     album_description := [];
     album_photos := [{| photo_uri := PStr (str "photos/a.jpg");
                         photo_description := [];
                         photo_timestamp := PInt 0 |}];
     album_cover := PStr (str "photos/a.jpg") |}.

(** An album file with a name and no photos. *)
Definition empty_album_file : pyval :=
  PDict [(str "name", PStr (str "Empty"))].

(** An album file with a photo and an empty [cover_photo] object. *)
Definition blank_cover_album_items : list (pystr * pyval) :=
  [(str "cover_photo", PDict []);
   (str "photos", PList [PDict [(str "uri", PStr (str "photos/a.jpg"))]])].

Definition blank_cover_album_file : pyval := PDict blank_cover_album_items.

(** An album file whose [cover_photo] names another picture. *)
Definition covered_album_items : list (pystr * pyval) :=
  [(str "cover_photo", PDict [(str "uri", PStr (str "photos/c.jpg"))]);
   (str "photos", PList [PDict [(str "uri", PStr (str "photos/a.jpg"))]])].

Definition covered_album_file : pyval := PDict covered_album_items.

Definition covered_album : album :=
  {| album_name := str "Untitled Album";
     album_description := [];
     album_photos := [{| photo_uri := PStr (str "photos/a.jpg");
                         photo_description := [];
                         photo_timestamp := PInt 0 |}];
     album_cover := PStr (str "photos/c.jpg") |}.

(** A raw post whose attachment has two links and two pictures. *)
Definition two_links_items : list (pystr * pyval) :=
  [(str "timestamp", PInt 9);
   (str "attachments",
    PList [PDict [(str "data",
      PList [PDict [(str "external_context",
                     PDict [(str "url", PStr (str "http://first"))])];
             PDict [(str "media", PDict [(str "uri", PStr (str "m/a.jpg"))])];
             PDict [(str "external_context",
                     PDict [(str "url", PStr (str "http://second"))])]])];
           PDict [(str "data",
      PList [PDict [(str "media", PDict [(str "uri", PStr (str "m/b.jpg"))])]])]])].

Definition two_links_post : post :=
  {| post_timestamp := PInt 9;
     post_title := [];
     post_text := [];
     post_media := [{| media_uri := PStr (str "m/a.jpg");
                       media_description := [] |};
                    {| media_uri := PStr (str "m/b.jpg");
                       media_description := [] |}];
     post_external_url := PStr (str "http://second") |}.

(** A media reference whose path is the root directory: it has no file
    name. *)
Definition root_media : media_ref :=
  {| media_uri := PStr (str "/"); media_description := [] |}.

(** A media reference into the export. *)
Definition sample_media : media_ref :=
  {| media_uri := PStr (str "posts/media/a.jpg");
     media_description := str "A & B" |}.

(** A source tree of two directories: two pictures with the same name, a
    text file and a picture with an upper-case suffix. *)
Definition sample_walk : list (pystr * list (pystr * list Z)) :=
  [(str "archive/posts/media",
    [(str "a.jpg", [1; 2]); (str "notes.txt", [3])]);
   (str "archive/posts/media/more",
    [(str "a.jpg", [4]); (str "B.JPG", [5]); (str "c.webp", [6])])].

(** A posts file in which two posts share the timestamp 3. *)
Definition tied_posts_file : pyval :=
  PList [PDict [(str "timestamp", PInt 3); (str "title", PStr (str "a"))];
         PDict [(str "timestamp", PInt 8)];
         PDict [(str "timestamp", PInt 3); (str "title", PStr (str "b"))]].

Definition titled_post (timestamp : Z) (title : pystr) : post :=
  {| post_timestamp := PInt timestamp;
     post_title := title;
     post_text := [];
     post_media := [];
     post_external_url := PNone |}.

(** The [data] entries of a post with a place, a text and a second text. *)
Definition sample_data_entries : list pyval :=
  [PDict [(str "place", PStr (str "here"))];
   PDict [(str "post", PStr (str "first"))];
   PDict [(str "post", PInt 4)]].

(** A photo with a caption that holds an apostrophe. *)
Definition sample_photo : photo :=
  {| photo_uri := PStr (str "photos/a.jpg");
     photo_description := str "Ray's desk";
     photo_timestamp := PInt 0 |}.

(** * Properties *)

(** ** HTML escaping *)

Lemma replace_char_app old new a b :
  replace_char old new (a ++ b)
  = replace_char old new a ++ replace_char old new b.
Proof.
  induction a as [|c a IH]; simpl; [done|].
  by rewrite IH, app_assoc.
Qed.

Lemma html_escape_app a b :
  html_escape (a ++ b) = html_escape a ++ html_escape b.
Proof. unfold html_escape. by rewrite !replace_char_app. Qed.

Lemma html_escape_single c : html_escape [c] = escape_char c.
Proof.
  unfold html_escape, escape_char. simpl replace_char at 5.
  destruct (Z.eqb_spec c 38) as [->|]; [done|].
  simpl replace_char at 4.
  destruct (Z.eqb_spec c 60) as [->|]; [done|].
  simpl replace_char at 3.
  destruct (Z.eqb_spec c 62) as [->|]; [done|].
  simpl replace_char at 2.
  destruct (Z.eqb_spec c 34) as [->|]; [done|].
  simpl replace_char.
  by destruct (Z.eqb_spec c 39) as [->|].
Qed.

Lemma html_escape_cons c s : html_escape (c :: s) = escape_char c ++ html_escape s.
Proof.
  change (c :: s) with ([c] ++ s).
  by rewrite html_escape_app, html_escape_single.
Qed.

Lemma escape_char_cases c :
  (is_special c = false ∧ escape_char c = [c])
  ∨ (is_special c = true ∧ ∃ t, escape_char c = 38 :: t ∧ t ≠ []).
Proof.
  unfold escape_char, is_special.
  destruct (Z.eqb_spec c 38) as [->|]; [right; split; [done|by eexists]|].
  destruct (Z.eqb_spec c 60) as [->|]; [right; split; [done|by eexists]|].
  destruct (Z.eqb_spec c 62) as [->|]; [right; split; [done|by eexists]|].
  destruct (Z.eqb_spec c 34) as [->|]; [right; split; [done|by eexists]|].
  destruct (Z.eqb_spec c 39) as [->|]; [right; split; [done|by eexists]|].
  left. split; [|done].
  apply bool_decide_eq_false. intros H.
  repeat (apply elem_of_cons in H as [?|H]; [lia|]).
  by apply elem_of_nil in H.
Qed.

Lemma html_escape_length s : (length s ≤ length (html_escape s))%nat.
Proof.
  induction s as [|c s IH]; [done|].
  rewrite html_escape_cons, length_app. simpl.
  destruct (escape_char_cases c) as [[_ ->]|[_ (t & -> & _)]]; simpl; lia.
Qed.

Lemma html_escape_plain s :
  Forall (fun c => is_special c = false) s -> html_escape s = s.
Proof.
  induction 1 as [|c s Hc _ IH]; [done|].
  rewrite html_escape_cons, IH.
  destruct (escape_char_cases c) as [[_ ->]|[? _]]; [done|congruence].
Qed.

Lemma html_escape_grows s :
  Exists (fun c => is_special c = true) s ->
  (length s < length (html_escape s))%nat.
Proof.
  induction 1 as [c s Hc|c s _ IH]; rewrite html_escape_cons, length_app.
  - pose proof (html_escape_length s).
    destruct (escape_char_cases c) as [[? _]|[_ (t & -> & Ht)]]; [congruence|].
    destruct t; [done|]. simpl. lia.
  - destruct (escape_char_cases c) as [[_ ->]|[_ (t & -> & _)]]; simpl; lia.
Qed.

Lemma html_escape_keeps_special s :
  Exists (fun c => is_special c = true) s ->
  Exists (fun c => is_special c = true) (html_escape s).
Proof.
  induction 1 as [c s Hc|c s _ IH]; rewrite html_escape_cons.
  - destruct (escape_char_cases c) as [[? _]|[_ (t & -> & _)]]; [congruence|].
    by apply Exists_cons_hd.
  - apply Exists_app. by right.
Qed.

Lemma special_dec s :
  Forall (fun c => is_special c = false) s
  ∨ Exists (fun c => is_special c = true) s.
Proof.
  induction s as [|c s [IH|IH]]; [by left| |].
  - destruct (is_special c) eqn:Hc.
    + right. by apply Exists_cons_hd.
    + left. by constructor.
  - right. by apply Exists_cons_tl.
Qed.

(** C1 (as amended). Escaping is idempotent exactly on the texts that hold
    none of the five characters [html.escape] rewrites: escaping an escaped
    text gives it back unchanged if and only if the original text has no
    ampersand, angle bracket or quote. On any other text a second escape
    rewrites the ampersands the first one produced. *)
Theorem html_escape_idempotent_iff (s : pystr) :
  html_escape (html_escape s) = html_escape s
  <-> Forall (fun c => is_special c = false) s.
Proof.
  split.
  - intros Heq. destruct (special_dec s) as [|Hex]; [done|].
    apply html_escape_keeps_special, html_escape_grows in Hex.
    rewrite Heq in Hex. lia.
  - intros Hs. by rewrite !(html_escape_plain s Hs).
Qed.

(** The renderer escapes the body text once before it looks for links. *)
Example post_text_html_example :
  post_text_html (str "Q&A at https://example.com/?a=1&b=2 <now>")
  = str "<p>Q&amp;A at "
    ++ anchor (str "https://example.com/?a=1&amp;b=2")
    ++ str " &lt;now&gt;</p>".
Proof. reflexivity. Qed.

(** C1 fails as stated: the escape of an ampersand is escaped again by a
    second pass. *)
Lemma html_escape_twice_differs :
  html_escape (str "&") = str "&amp;"
  ∧ html_escape (html_escape (str "&")) = str "&amp;amp;"
  ∧ ¬ (∀ s, html_escape (html_escape s) = html_escape s).
Proof.
  split; [done|]. split; [done|].
  intros H. specialize (H (str "&")). vm_compute in H. discriminate H.
Qed.

(** ** Text decoding *)

Ltac bool_hyps :=
  repeat match goal with
    | H : _ && _ = true |- _ => apply andb_true_iff in H as [? ?]
    | H : negb _ = true |- _ => apply negb_true_iff in H
    | H : (_ <=? _) = true |- _ => apply Z.leb_le in H
    | H : (_ <? _) = true |- _ => apply Z.ltb_lt in H
    | H : (_ =? _) = true |- _ => apply Z.eqb_eq in H
    | H : (_ =? _) = false |- _ => apply Z.eqb_neq in H
    | H : (_ <=? _) = false |- _ => apply Z.leb_gt in H
    | H : (_ <? _) = false |- _ => apply Z.ltb_ge in H
    end.

Ltac div_lia := Z.div_mod_to_equations; lia.

(** Decide the comparisons of the goal by arithmetic. *)
Ltac decide_tests :=
  repeat match goal with
    | |- context [?a <=? ?b] =>
        first [ rewrite (proj2 (Z.leb_le a b)) by div_lia
              | rewrite (proj2 (Z.leb_gt a b)) by div_lia ]
    | |- context [?a <? ?b] =>
        first [ rewrite (proj2 (Z.ltb_lt a b)) by div_lia
              | rewrite (proj2 (Z.ltb_ge a b)) by div_lia ]
    | |- context [?a =? ?b] =>
        first [ rewrite (proj2 (Z.eqb_eq a b)) by div_lia
              | rewrite (proj2 (Z.eqb_neq a b)) by div_lia ]
    end.

Lemma second3_range b0 b1 :
  second3 b0 b1 = true ->
  0x80 <= b1 <= 0xBF ∧ (b0 = 0xE0 -> 0xA0 <= b1) ∧ (b0 = 0xED -> b1 <= 0x9F).
Proof.
  unfold second3, is_cont.
  destruct (Z.eqb_spec b0 0xE0); [|destruct (Z.eqb_spec b0 0xED)];
    intros; bool_hyps; lia.
Qed.

Lemma second4_range b0 b1 :
  second4 b0 b1 = true ->
  0x80 <= b1 <= 0xBF ∧ (b0 = 0xF0 -> 0x90 <= b1) ∧ (b0 = 0xF4 -> b1 <= 0x8F).
Proof.
  unfold second4, is_cont.
  destruct (Z.eqb_spec b0 0xF0); [|destruct (Z.eqb_spec b0 0xF4)];
    intros; bool_hyps; lia.
Qed.

Lemma utf8_encode_cons c t :
  utf8_encode (c :: t) = utf8_encode_char c ++ utf8_encode t.
Proof. done. Qed.

(** What the decoder accepts is the UTF-8 encoding of the text it returns,
    and that text holds scalar values only. *)
Lemma utf8_decode_sound bs :
  ∀ t, utf8_decode bs = Some t ->
       utf8_encode t = bs ∧ Forall (fun c => is_scalar c = true) t.
Proof.
  induction bs as [bs IH] using (induction_ltof1 _ length). unfold ltof in IH.
  intros t. destruct bs as [|b0 r0]; simpl.
  { intros [= <-]. by split. }
  destruct ((0 <=? b0) && (b0 <? 0x80)) eqn:H1.
  { intros (t' & Ht' & ->)%fmap_Some.
    destruct (IH r0 ltac:(simpl; lia) _ Ht') as [<- Hsc]. bool_hyps.
    rewrite utf8_encode_cons. unfold utf8_encode_char. decide_tests.
    split; [done|]. constructor; [|done]. unfold is_scalar. by decide_tests. }
  destruct ((0xC2 <=? b0) && (b0 <=? 0xDF)) eqn:H2.
  { destruct r0 as [|b1 r1]; [done|].
    destruct (is_cont b1) eqn:Hc1; [|done]. unfold is_cont in Hc1.
    intros (t' & Ht' & ->)%fmap_Some.
    destruct (IH r1 ltac:(simpl; lia) _ Ht') as [<- Hsc]. bool_hyps.
    rewrite utf8_encode_cons. unfold utf8_encode_char. decide_tests.
    split.
    - simpl. f_equal; [div_lia|]. f_equal. div_lia.
    - constructor; [|done]. unfold is_scalar. by decide_tests. }
  destruct ((0xE0 <=? b0) && (b0 <=? 0xEF)) eqn:H3.
  { destruct r0 as [|b1 [|b2 r2]]; [done..|].
    destruct (second3 b0 b1) eqn:Hs; [|done].
    destruct (is_cont b2) eqn:Hc2; [|done]. unfold is_cont in Hc2. simpl.
    apply second3_range in Hs as (? & ? & ?).
    intros (t' & Ht' & ->)%fmap_Some.
    destruct (IH r2 ltac:(simpl; lia) _ Ht') as [<- Hsc]. bool_hyps.
    rewrite utf8_encode_cons. unfold utf8_encode_char. decide_tests.
    split.
    - simpl. f_equal; [div_lia|]. f_equal; [div_lia|]. f_equal. div_lia.
    - constructor; [|done]. unfold is_scalar.
      destruct (Z.lt_trichotomy b0 0xED) as [?|[?|?]]; by decide_tests. }
  destruct ((0xF0 <=? b0) && (b0 <=? 0xF4)) eqn:H4; [|done].
  destruct r0 as [|b1 [|b2 [|b3 r3]]]; [done..|].
  destruct (second4 b0 b1) eqn:Hs; [|done].
  destruct (is_cont b2) eqn:Hc2; [|done]. unfold is_cont in Hc2.
  destruct (is_cont b3) eqn:Hc3; [|done]. unfold is_cont in Hc3. simpl.
  apply second4_range in Hs as (? & ? & ?).
  intros (t' & Ht' & ->)%fmap_Some.
  destruct (IH r3 ltac:(simpl; lia) _ Ht') as [<- Hsc]. bool_hyps.
  rewrite utf8_encode_cons. unfold utf8_encode_char. decide_tests.
  split.
  - simpl. f_equal; [div_lia|]. f_equal; [div_lia|]. f_equal; [div_lia|].
    f_equal. div_lia.
  - constructor; [|done]. unfold is_scalar. by decide_tests.
Qed.

Lemma utf8_decode_app_char c rest t :
  is_scalar c = true ->
  utf8_decode rest = Some t ->
  utf8_decode (utf8_encode_char c ++ rest) = Some (c :: t).
Proof.
  unfold is_scalar, utf8_encode_char. intros Hc Hrest. bool_hyps.
  destruct (Z.ltb_spec c 0x80).
  { simpl. decide_tests. simpl. by rewrite Hrest. }
  destruct (Z.ltb_spec c 0x800).
  { simpl. unfold is_cont. decide_tests. simpl. rewrite Hrest. simpl.
    do 2 f_equal. div_lia. }
  destruct (Z.ltb_spec c 0x10000).
  { simpl. unfold second3, is_cont.
    assert (c < 0xD800 ∨ 0xDFFF < c) as Hsur.
    { apply andb_false_iff in H0 as [?|?]; bool_hyps; lia. }
    destruct (Z.eq_dec (0xE0 + c / 4096) 0xE0), (Z.eq_dec (0xE0 + c / 4096) 0xED);
      decide_tests; simpl; rewrite Hrest; simpl; do 2 f_equal; div_lia. }
  simpl. unfold second4, is_cont.
  destruct (Z.eq_dec (0xF0 + c / 262144) 0xF0), (Z.eq_dec (0xF0 + c / 262144) 0xF4);
    decide_tests; simpl; rewrite Hrest; simpl; do 2 f_equal; div_lia.
Qed.

(** The decoder inverts the encoder on every text of scalar values. *)
Lemma utf8_decode_encode t :
  Forall (fun c => is_scalar c = true) t -> utf8_decode (utf8_encode t) = Some t.
Proof.
  induction 1 as [|c t Hc _ IH]; [done|].
  rewrite utf8_encode_cons. by apply utf8_decode_app_char.
Qed.

Lemma utf8_encode_bytes t :
  Forall (fun c => is_scalar c = true) t ->
  latin1_encode (utf8_encode t) = Some (utf8_encode t).
Proof.
  intros Ht. unfold latin1_encode.
  assert (forallb (fun c => (0 <=? c) && (c <? 256)) (utf8_encode t) = true)
    as ->; [|done].
  induction Ht as [|c t Hc _ IH]; [done|].
  rewrite utf8_encode_cons, forallb_app, IH, andb_true_r.
  unfold is_scalar in Hc. bool_hyps. unfold utf8_encode_char.
  destruct (Z.ltb_spec c 0x80); [simpl; by decide_tests|].
  destruct (Z.ltb_spec c 0x800); [simpl; by decide_tests|].
  destruct (Z.ltb_spec c 0x10000); simpl; by decide_tests.
Qed.

Lemma latin1_encode_Some s bs : latin1_encode s = Some bs -> bs = s.
Proof. unfold latin1_encode. by case_match; intros [= <-]. Qed.

(** C2. Absent input gives the empty string. A string always gives a string
    back, never an exception: the latin-1 bytes of the input decoded as
    UTF-8 when both steps succeed, the input itself when either fails. The
    round trip is the intended repair: the UTF-8 encoding of a text read as
    latin-1 decodes to that text, and whatever is returned is either the
    input or the text whose UTF-8 encoding the input is. *)
Theorem decode_facebook_text_spec :
  decode_facebook_text PNone = Ok []
  ∧ (∀ s, ∃ t, decode_facebook_text (PStr s) = Ok t
               ∧ match latin1_encode s ≫= utf8_decode with
                 | Some u => t = u
                 | None => t = s
                 end)
  ∧ (∀ t, Forall (fun c => is_scalar c = true) t ->
          decode_facebook_text (PStr (utf8_encode t)) = Ok t)
  ∧ (∀ s t, decode_facebook_text (PStr s) = Ok t ->
            t = s ∨ (utf8_encode t = s ∧ Forall (fun c => is_scalar c = true) t)).
Proof.
  split; [done|]. split; [|split].
  - intros s. unfold decode_facebook_text.
    destruct (latin1_encode s) as [bs|]; simpl; [|by eexists].
    destruct (utf8_decode bs); by eexists.
  - intros t Ht. unfold decode_facebook_text.
    by rewrite utf8_encode_bytes, utf8_decode_encode.
  - intros s t. unfold decode_facebook_text.
    destruct (latin1_encode s) as [bs|] eqn:Hl; [|intros [= <-]; by left].
    apply latin1_encode_Some in Hl as ->.
    destruct (utf8_decode s) as [u|] eqn:Hu; intros [= <-]; [|by left].
    right. by apply utf8_decode_sound.
Qed.

(** The theorem at the text [Tést]: its UTF-8 bytes read as latin-1,
    [T Ã © s t], are decoded back to it. *)
Lemma decode_facebook_text_spec_witness :
  Forall (fun c => is_scalar c = true) [0x54; 0xE9; 0x73; 0x74]
  ∧ utf8_encode [0x54; 0xE9; 0x73; 0x74] = [0x54; 0xC3; 0xA9; 0x73; 0x74]
  ∧ decode_facebook_text (PStr (utf8_encode [0x54; 0xE9; 0x73; 0x74]))
    = Ok [0x54; 0xE9; 0x73; 0x74].
Proof.
  assert (Forall (fun c => is_scalar c = true) [0x54; 0xE9; 0x73; 0x74]) as H.
  { repeat constructor. }
  split; [exact H|]. split; [reflexivity|].
  exact (proj1 (proj2 (proj2 decode_facebook_text_spec)) _ H).
Defined.

(** A text that is not the latin-1 reading of UTF-8 bytes comes back
    unchanged: a lone [é], and a character above U+00FF. *)
Example decode_facebook_text_unchanged :
  decode_facebook_text (PStr [0x54; 0xE9; 0x73; 0x74]) = Ok [0x54; 0xE9; 0x73; 0x74]
  ∧ decode_facebook_text (PStr [0x20AC; 0x35]) = Ok [0x20AC; 0x35].
Proof. by split. Qed.

(** ** The order of posts *)

Lemma Z_compare_trans x y z c :
  (x ?= y) = c -> (y ?= z) = c -> (x ?= z) = c.
Proof.
  destruct c; rewrite ?Z.compare_eq_iff, ?Z.compare_lt_iff, ?Z.compare_gt_iff;
    lia.
Qed.

Lemma str_ltb_asym a b : str_ltb a b = true -> str_ltb b a = false.
Proof.
  unfold str_ltb.
  rewrite (list_compare_antisym Z.compare Z.compare_eq_iff a b
             (fun x y => Z.compare_antisym x y)).
  by destruct (list_compare Z.compare a b).
Qed.

Lemma str_geb_trans a b c :
  str_ltb a b = false -> str_ltb b c = false -> str_ltb a c = false.
Proof.
  unfold str_ltb.
  destruct (list_compare Z.compare a b) eqn:Hab; [|done|]; intros _.
  { apply (list_compare_refl Z.compare Z.compare_eq_iff) in Hab as ->. done. }
  destruct (list_compare Z.compare b c) eqn:Hbc; [|done|]; intros _.
  { apply (list_compare_refl Z.compare Z.compare_eq_iff) in Hbc as <-.
    by rewrite Hab. }
  by rewrite (list_compare_trans Z.compare Z.compare_eq_iff a b c
                Z_compare_trans (fun x y => Z.compare_antisym x y) Hab Hbc).
Qed.

Lemma Ok_inj {A} (a b : A) : Ok a = Ok b -> a = b.
Proof. by intros [= ->]. Qed.

Lemma py_lt_asym a b : py_lt a b = Ok true -> py_lt b a = Ok false.
Proof.
  destruct a as [|[|]| | | | |], b as [|[|]| | | | |]; simpl; try done;
    intros [= H]; f_equal; try (bool_hyps; lia).
  by apply str_ltb_asym.
Qed.

Lemma py_ge_trans a b c :
  py_lt a b = Ok false -> py_lt b c = Ok false -> py_lt a c = Ok false.
Proof.
  destruct a as [|[|]| | | | |], b as [|[|]| | | | |], c as [|[|]| | | | |];
    unfold py_lt; try done; intros H1%Ok_inj H2%Ok_inj; f_equal;
    try (bool_hyps; simpl in *; lia).
  by eapply str_geb_trans.
Qed.

Section Sorting.
Context {A : Type} (key : A -> pyval).

Lemma insert_desc_perm x l l' :
  insert_desc key x l = Ok l' -> l' ≡ₚ x :: l.
Proof.
  revert l'. induction l as [|y l IH]; simpl; intros l'.
  { by intros [= <-]. }
  destruct (py_lt (key x) (key y)) as [[]|]; simpl; [|by intros [= <-]|done].
  destruct (insert_desc key x l) as [r|]; simpl; [|done].
  intros [= <-]. rewrite (IH r eq_refl). apply Permutation_swap.
Qed.

Lemma insert_desc_sorted x l l' :
  StronglySorted (before key) l ->
  insert_desc key x l = Ok l' ->
  StronglySorted (before key) l'.
Proof.
  intros Hl. revert l'.
  induction Hl as [|y l Hl IH Hy]; simpl; intros l'.
  { intros [= <-]. repeat constructor. }
  destruct (py_lt (key x) (key y)) as [[]|] eqn:Hxy; simpl; [| |done].
  - destruct (insert_desc key x l) as [r|] eqn:Hr; simpl; [|done].
    intros [= <-]. constructor; [by apply IH|].
    apply insert_desc_perm in Hr. rewrite Hr. constructor; [|done].
    by apply py_lt_asym.
  - intros [= <-]. constructor; [by constructor|].
    constructor; [done|].
    eapply Forall_impl; [exact Hy|]. intros z Hz.
    by eapply py_ge_trans.
Qed.

Lemma sort_reverse_perm l l' : sort_reverse key l = Ok l' -> l' ≡ₚ l.
Proof.
  revert l'. induction l as [|x l IH]; simpl; intros l'.
  { by intros [= <-]. }
  destruct (sort_reverse key l) as [s|]; simpl; [|done].
  intros ->%insert_desc_perm. by rewrite (IH s eq_refl).
Qed.

Lemma sort_reverse_sorted l l' :
  sort_reverse key l = Ok l' -> StronglySorted (before key) l'.
Proof.
  revert l'. induction l as [|x l IH]; simpl; intros l'.
  { intros [= <-]. constructor. }
  destruct (sort_reverse key l) as [s|]; simpl; [|done].
  apply insert_desc_sorted. by apply IH.
Qed.

(** The sort never raises on integer keys. *)
Lemma insert_desc_int x l :
  (∃ n, key x = PInt n) -> Forall (fun y => ∃ n, key y = PInt n) l ->
  ∃ l', insert_desc key x l = Ok l'.
Proof.
  intros [n Hn]. induction 1 as [|y l [m Hm] _ [r IH]]; simpl; [by eexists|].
  rewrite Hn, Hm. simpl. rewrite IH. simpl. destruct (n <? m); by eexists.
Qed.

Lemma sort_reverse_int l :
  Forall (fun y => ∃ n, key y = PInt n) l ->
  ∃ l', sort_reverse key l = Ok l'.
Proof.
  induction 1 as [|x l Hx Hl [s IH]]; simpl; [by eexists|].
  rewrite IH. simpl. apply insert_desc_int; [done|].
  apply sort_reverse_perm in IH. by rewrite IH.
Qed.

Lemma sorted_lookup l i j x y :
  StronglySorted (before key) l -> (i < j)%nat ->
  l !! i = Some x -> l !! j = Some y -> before key x y.
Proof.
  intros Hl. revert i j.
  induction Hl as [|z l Hl IH Hz]; intros i j Hij Hi Hj; [done|].
  destruct j as [|j]; [lia|]. simpl in Hj.
  destruct i as [|i]; simpl in Hi.
  - injection Hi as ->. rewrite Forall_forall in Hz. apply Hz.
    by eapply list_elem_of_lookup_2.
  - apply (IH i j); [lia|done..].
Qed.
End Sorting.

Lemma load_posts_sorted file posts :
  load_posts file = Ok posts -> StronglySorted (before post_timestamp) posts.
Proof.
  unfold load_posts. destruct (negb (truthy (load_json file))).
  { intros [= <-]. constructor. }
  destruct (py_iter (load_json file)) as [items|]; simpl; [|done].
  destruct (parse_posts items []) as [ps|]; simpl; [|done].
  apply sort_reverse_sorted.
Qed.

(** C3 (as amended). When every timestamp of the file is an integer or
    absent, so that every post [load_posts] returns has an integer
    timestamp, no post in the returned sequence has a timestamp smaller
    than that of a post after it (newest first). A post whose timestamp is
    zero, which is what an absent timestamp becomes, stands after every
    post with a positive timestamp; it stands before every post with a
    negative one. *)
Theorem load_posts_order (file : option pyval) (posts : list post) :
  load_posts file = Ok posts ->
  Forall (fun p => ∃ n, post_timestamp p = PInt n) posts ->
  (∀ i j p q, (i < j)%nat -> posts !! i = Some p -> posts !! j = Some q ->
     ∃ m n, post_timestamp p = PInt m ∧ post_timestamp q = PInt n ∧ n <= m)
  ∧ (∀ i j p q n, posts !! i = Some p -> posts !! j = Some q ->
       post_timestamp p = PInt 0 -> post_timestamp q = PInt n ->
       (0 < n -> (j < i)%nat) ∧ (n < 0 -> (i < j)%nat))
  ∧ (∀ d p, dict_lookup (str "timestamp") d = None ->
       parse_post (PDict d) = Ok p -> post_timestamp p = PInt 0).
Proof.
  intros Hsorted%load_posts_sorted Hints.
  assert (∀ i j p q, (i < j)%nat -> posts !! i = Some p -> posts !! j = Some q ->
            py_lt (post_timestamp p) (post_timestamp q) = Ok false) as Hord.
  { intros i j p q Hij Hi Hj. by eapply (sorted_lookup post_timestamp). }
  rewrite Forall_forall in Hints.
  split; [|split].
  - intros i j p q Hij Hi Hj.
    destruct (Hints p (list_elem_of_lookup_2 _ _ _ Hi)) as [m Hm].
    destruct (Hints q (list_elem_of_lookup_2 _ _ _ Hj)) as [n Hn].
    exists m, n. split; [done|]. split; [done|].
    pose proof (Hord _ _ _ _ Hij Hi Hj) as H. rewrite Hm, Hn in H.
    apply Ok_inj in H. bool_hyps. lia.
  - intros i j p q n Hi Hj Hp Hq.
    destruct (Nat.lt_trichotomy i j) as [Hlt|[->|Hlt]].
    + pose proof (Hord _ _ _ _ Hlt Hi Hj) as H. rewrite Hp, Hq in H.
      apply Ok_inj in H. bool_hyps. split; lia.
    + rewrite Hi in Hj. injection Hj as ->. rewrite Hp in Hq.
      injection Hq as <-. split; lia.
    + pose proof (Hord _ _ _ _ Hlt Hj Hi) as H. rewrite Hp, Hq in H.
      apply Ok_inj in H. bool_hyps. split; lia.
  - intros d p Hd. unfold parse_post. simpl. rewrite Hd. simpl.
    repeat (match goal with
            | |- bind ?m _ = _ -> _ => destruct m as [?|]; simpl; [|done]
            | |- (let '(_, _) := ?x in _) = _ -> _ => destruct x
            end).
    by intros [= <-].
Qed.

(** The theorem at a file of three posts with timestamps 5, absent and 7. *)
Lemma load_posts_order_witness :
  load_posts (Some sample_posts_file)
  = Ok [bare_post (PInt 7); bare_post (PInt 5);
        {| post_timestamp := PInt 0; post_title := str "untimed";
           post_text := []; post_media := []; post_external_url := PNone |}]
  ∧ ∀ i j p q n,
      [bare_post (PInt 7); bare_post (PInt 5);
       {| post_timestamp := PInt 0; post_title := str "untimed";
          post_text := []; post_media := []; post_external_url := PNone |}]
        !! i = Some p ->
      [bare_post (PInt 7); bare_post (PInt 5);
       {| post_timestamp := PInt 0; post_title := str "untimed";
          post_text := []; post_media := []; post_external_url := PNone |}]
        !! j = Some q ->
      post_timestamp p = PInt 0 -> post_timestamp q = PInt n ->
      (0 < n -> (j < i)%nat) ∧ (n < 0 -> (i < j)%nat).
Proof.
  split; [reflexivity|].
  refine (proj1 (proj2 (load_posts_order (Some sample_posts_file) _ eq_refl _))).
  constructor; [by eexists|]. constructor; [by eexists|].
  constructor; [by eexists|]. constructor.
Defined.

(** C3 fails as stated: with a post from before 1970 in the file, the post
    without a timestamp is returned first, not last. *)
Lemma load_posts_zero_not_last :
  load_posts (Some early_posts_file)
  = Ok [bare_post (PInt 0); bare_post (PInt (-5))]
  ∧ ¬ (∀ file posts i j p q,
         load_posts file = Ok posts ->
         posts !! i = Some p -> posts !! j = Some q ->
         post_timestamp p = PInt 0 -> post_timestamp q ≠ PInt 0 ->
         (j < i)%nat).
Proof.
  split; [reflexivity|]. intros H.
  specialize (H (Some early_posts_file) _ 0%nat 1%nat _ _
                eq_refl eq_refl eq_refl eq_refl).
  simpl in H. assert (1 < 0)%nat; [|lia]. by apply H.
Qed.

(** ** Albums *)

Ltac step_bind :=
  match goal with
  | |- bind ?m _ = _ -> _ =>
      let H := fresh "Hstep" in destruct m eqn:H; simpl; [|done]
  end.

Lemma load_album_files_app pre rest albums :
  load_album_files (pre ++ rest) albums
  = (let* albums' := load_album_files pre albums in
     load_album_files rest albums').
Proof.
  revert albums. induction pre as [|file pre IH]; intros albums; simpl; [done|].
  destruct (negb (truthy (load_json file))); [done|].
  destruct (parse_album (load_json file)) as [a|]; simpl; [|done].
  by destruct (album_photos a).
Qed.

(** A file that is skipped leaves the result as it is without it. *)
Lemma load_album_files_skip pre file post :
  (truthy (load_json file) = false
   ∨ ∃ a, parse_album (load_json file) = Ok a ∧ album_photos a = []) ->
  load_album_files (pre ++ file :: post) []
  = load_album_files (pre ++ post) [].
Proof.
  intros Hskip. rewrite !load_album_files_app.
  destruct (load_album_files pre []) as [albums|]; simpl; [|done].
  destruct Hskip as [->|(a & Ha & Hph)]; simpl; [done|].
  destruct (negb (truthy (load_json file))); [done|].
  rewrite Ha. simpl. by rewrite Hph.
Qed.

(** Every album of the result was built from one of the files, and has a
    photo. *)
Lemma load_album_files_inv files albums result :
  load_album_files files albums = Ok result ->
  ∃ new, result = albums ++ new
         ∧ Forall (fun a => album_photos a ≠ []
                            ∧ ∃ file, file ∈ files
                                      ∧ truthy (load_json file) = true
                                      ∧ parse_album (load_json file) = Ok a) new.
Proof.
  revert albums. induction files as [|file files IH]; intros albums; simpl.
  { intros [= <-]. exists []. by rewrite app_nil_r. }
  assert (∀ acc, load_album_files files acc = Ok result ->
     ∃ new, result = acc ++ new
       ∧ Forall (fun a => album_photos a ≠ []
                          ∧ ∃ f, f ∈ file :: files
                                 ∧ truthy (load_json f) = true
                                 ∧ parse_album (load_json f) = Ok a) new) as IH'.
  { intros acc (new & -> & Hnew)%IH. exists new. split; [done|].
    eapply Forall_impl; [exact Hnew|]. intros a (? & f & ? & ? & ?).
    split; [done|]. exists f. split; [by right|done]. }
  destruct (truthy (load_json file)) eqn:Ht; simpl; [|by apply IH'].
  destruct (parse_album (load_json file)) as [a|] eqn:Ha; simpl; [|done].
  destruct (album_photos a) as [|ph phs] eqn:Hph; [by apply IH'|].
  intros (new & -> & Hnew)%IH'. exists (a :: new).
  split; [by rewrite <- app_assoc|]. constructor; [|done].
  split; [by rewrite Hph|]. exists file. split; [by left|done].
Qed.

(** C4. Every album [load_albums] returns has at least one photo, and so
    has every album an album page is written for; a file whose album has no
    photo changes nothing in the result. *)
Theorem load_albums_nonempty :
  (∀ dir albums, load_albums dir = Ok albums ->
     Forall (fun a => album_photos a ≠ []) albums
     ∧ Forall (fun page => album_photos page.2 ≠ []) (album_pages albums))
  ∧ (∀ pre file post a,
       parse_album (load_json file) = Ok a -> album_photos a = [] ->
       load_albums (Some (pre ++ file :: post)) = load_albums (Some (pre ++ post))).
Proof.
  split.
  - intros dir albums Hload.
    assert (Forall (fun a => album_photos a ≠ []) albums) as Hall.
    { destruct dir as [files|]; simpl in Hload; [|by injection Hload as <-].
      apply load_album_files_inv in Hload as (new & -> & Hnew). simpl.
      eapply Forall_impl; [exact Hnew|]. by intros a [? _]. }
    split; [done|]. unfold album_pages.
    apply Forall_forall. intros [name a] Hin.
    apply list_elem_of_lookup in Hin as [i Hi].
    rewrite list_lookup_imap in Hi.
    destruct (albums !! i) as [b|] eqn:Hb; simpl in Hi; [|done].
    injection Hi as _ <-. simpl.
    rewrite Forall_forall in Hall. apply Hall.
    by eapply list_elem_of_lookup_2.
  - intros pre file post a Ha Hph. simpl.
    apply load_album_files_skip. right. by exists a.
Qed.

(** The theorem at a directory of two files, the second without photos. *)
Lemma load_albums_nonempty_witness :
  load_albums (Some [Some sample_album_file; Some empty_album_file])
  = Ok [sample_album]
  ∧ Forall (fun a => album_photos a ≠ []) [sample_album]
  ∧ load_albums (Some ([Some sample_album_file] ++ Some empty_album_file :: []))
    = load_albums (Some ([Some sample_album_file] ++ [])).
Proof.
  split; [reflexivity|]. split.
  - exact (proj1 (proj1 load_albums_nonempty
                    (Some [Some sample_album_file; Some empty_album_file])
                    [sample_album] eq_refl)).
  - exact (proj2 load_albums_nonempty [Some sample_album_file]
             (Some empty_album_file) []
             {| album_name := str "Empty"; album_description := [];
                album_photos := []; album_cover := PNone |}
             eq_refl eq_refl).
Defined.

(** The photos collected are those of the file, in its order, each with the
    [uri] of its entry. *)
Lemma parse_photos_uris ps photos result :
  parse_photos ps photos = Ok result ->
  ∃ new, result = photos ++ new
         ∧ Forall2 (fun j p => py_get j (str "uri") PNone = Ok (photo_uri p)) ps new.
Proof.
  revert photos. induction ps as [|j ps IH]; intros photos; simpl.
  { intros [= <-]. exists []. by rewrite app_nil_r. }
  destruct (py_get j (str "uri") PNone) as [uri|] eqn:Huri; simpl; [|done].
  do 3 step_bind.
  intros (new & -> & Hnew)%IH. eexists (_ :: new).
  split; [by rewrite <- app_assoc|]. by constructor.
Qed.

Lemma parse_album_dict data a :
  parse_album data = Ok a -> ∃ d, data = PDict d.
Proof. destruct data; try done. by eexists. Qed.

(** C5 (as amended). When the album file has a [cover_photo] entry that is
    not empty (a truthy value), the cover is that entry's [uri], absent
    when it has none. Otherwise, when [cover_photo] is absent or empty, the
    cover is the [uri] of the first photo of the file, and absent for an
    album without photos. *)
Theorem parse_album_cover (d : list (pystr * pyval)) (a : album) :
  parse_album (PDict d) = Ok a ->
  let cover_photo := default PNone (dict_lookup (str "cover_photo") d) in
  (truthy cover_photo = true ->
     py_get cover_photo (str "uri") PNone = Ok (album_cover a))
  ∧ (truthy cover_photo = false ->
       match album_photos a with
       | first :: _ =>
           album_cover a = photo_uri first
           ∧ ∃ j js, py_iter (default (PList []) (dict_lookup (str "photos") d))
                     = Ok (j :: js)
                     ∧ py_get j (str "uri") PNone = Ok (photo_uri first)
       | [] => album_cover a = PNone
       end).
Proof.
  unfold parse_album. simpl. do 2 step_bind.
  destruct (py_iter (default (PList []) (dict_lookup (str "photos") d)))
    as [ps|] eqn:Hps; simpl; [|done].
  destruct (parse_photos ps []) as [photos|] eqn:Hph; simpl; [|done].
  apply parse_photos_uris in Hph as (new & -> & Hnew). simpl in *.
  destruct (truthy (default PNone (dict_lookup (str "cover_photo") d))) eqn:Ht.
  - destruct (dict_lookup (str "cover_photo") d) as [c|] eqn:Hc; [|done].
    simpl in *. step_bind. intros [= <-]. simpl. split; [done|done].
  - destruct new as [|p new]; simpl; intros [= <-]; simpl; (split; [done|]);
      intros _; [done|].
    split; [done|]. inversion Hnew as [|j ? js ? Hj ?]; subst. by exists j, js.
Qed.

(** The theorem at a file with an explicit cover and at a file without. *)
Lemma parse_album_cover_witness :
  parse_album covered_album_file = Ok covered_album
  ∧ py_get (PDict [(str "uri", PStr (str "photos/c.jpg"))]) (str "uri") PNone
    = Ok (album_cover covered_album)
  ∧ parse_album sample_album_file = Ok sample_album
  ∧ album_cover sample_album = PStr (str "photos/a.jpg").
Proof.
  split; [reflexivity|]. split; [|split; [reflexivity|]].
  - exact (proj1 (parse_album_cover covered_album_items covered_album eq_refl)
             eq_refl).
  - exact (proj1 (proj2 (parse_album_cover sample_album_items sample_album
                           eq_refl) eq_refl)).
Defined.

(** C5 fails as stated: with a [cover_photo] entry that is present and
    empty, the cover is the first photo and not the entry's (absent)
    [uri]. *)
Lemma parse_album_blank_cover :
  (∃ a, parse_album blank_cover_album_file = Ok a
        ∧ album_cover a = PStr (str "photos/a.jpg")
        ∧ py_get (PDict []) (str "uri") PNone = Ok PNone)
  ∧ ¬ (∀ d a c, parse_album (PDict d) = Ok a ->
                dict_lookup (str "cover_photo") d = Some c ->
                py_get c (str "uri") PNone = Ok (album_cover a)).
Proof.
  split; [by eexists|]. intros H.
  specialize (H blank_cover_album_items
                {| album_name := str "Untitled Album"; album_description := [];
                   album_photos := [{| photo_uri := PStr (str "photos/a.jpg");
                                       photo_description := [];
                                       photo_timestamp := PInt 0 |}];
                   album_cover := PStr (str "photos/a.jpg") |}
                (PDict []) eq_refl eq_refl).
  discriminate H.
Qed.

(** C10. An album built from a file without a [name] key is called
    [Untitled Album], and every album returned was built from a file whose
    contents are truthy. A file that parses to a falsy value is skipped as
    one that failed to parse is: the result is the same with either, and
    the same without the file. *)
Theorem load_albums_defaults :
  (∀ dir albums a, load_albums dir = Ok albums -> a ∈ albums ->
     ∃ file, file ∈ default [] dir
             ∧ truthy (load_json file) = true
             ∧ parse_album (load_json file) = Ok a
             ∧ ∀ d, load_json file = PDict d ->
                    dict_lookup (str "name") d = None ->
                    album_name a = str "Untitled Album")
  ∧ (∀ pre v post, truthy v = false ->
       load_albums (Some (pre ++ Some v :: post))
       = load_albums (Some (pre ++ None :: post))
       ∧ load_albums (Some (pre ++ Some v :: post))
         = load_albums (Some (pre ++ post))).
Proof.
  split.
  - intros [files|] albums a Hload Ha; simpl in *;
      [|injection Hload as <-; by apply elem_of_nil in Ha].
    apply load_album_files_inv in Hload as (new & -> & Hnew). simpl in Ha.
    rewrite Forall_forall in Hnew.
    destruct (Hnew a Ha) as (_ & file & Hin & Ht & Hp).
    exists file. repeat (split; [done|]).
    intros d Hd Hname. rewrite Hd in Hp. revert Hp.
    unfold parse_album. simpl. rewrite Hname. simpl.
    change (decode_facebook_text (PStr (str "Untitled Album")))
      with (Ok (A:=pystr) (str "Untitled Album")). simpl.
    repeat step_bind. by intros [= <-].
  - intros pre v post Hv. simpl.
    rewrite (load_album_files_skip pre (Some v) post) by (by left).
    by rewrite (load_album_files_skip pre None post) by (by left).
Qed.

(** The theorem at a directory of one file without a name, and at a
    directory where an empty object stands beside it. *)
Lemma load_albums_defaults_witness :
  load_albums (Some [Some sample_album_file]) = Ok [sample_album]
  ∧ album_name sample_album = str "Untitled Album"
  ∧ load_albums (Some ([Some sample_album_file] ++ Some (PDict []) :: []))
    = load_albums (Some ([Some sample_album_file] ++ None :: [])).
Proof.
  split; [reflexivity|]. split; [reflexivity|].
  exact (proj1 (proj2 load_albums_defaults [Some sample_album_file] (PDict [])
                  [] eq_refl)).
Defined.

(** ** Attachments *)

Lemma py_contains_media d b :
  py_contains (str "media") d = Ok b ->
  if b then ∀ m uri raw,
              py_getitem d (str "media") = Ok m ->
              py_get m (str "uri") PNone = Ok uri ->
              py_get m (str "description") (PStr []) = Ok raw ->
              entry_media_uri d = Some uri
  else entry_media_uri d = None.
Proof.
  destruct d as [| | | |l|items|]; simpl; try done.
  - intros [= <-]. by case_match.
  - intros [= <-]. by case_match.
  - intros [= <-]. destruct (dict_lookup (str "media") items) as [m|] eqn:Hm.
    + rewrite bool_decide_eq_true_2 by done.
      intros m' uri raw [= <-]. destruct m; simpl; try done. by intros [= <-].
    + rewrite bool_decide_eq_false_2; [done|]. by intros [? ?].
Qed.

Lemma py_contains_link d b :
  py_contains (str "external_context") d = Ok b ->
  if b then ∀ c url,
              py_getitem d (str "external_context") = Ok c ->
              py_get c (str "url") PNone = Ok url ->
              entry_link_url d = Some url
  else entry_link_url d = None.
Proof.
  destruct d as [| | | |l|items|]; simpl; try done.
  - intros [= <-]. by case_match.
  - intros [= <-]. by case_match.
  - intros [= <-].
    destruct (dict_lookup (str "external_context") items) as [c|] eqn:Hc.
    + rewrite bool_decide_eq_true_2 by done.
      intros c' url [= <-]. destruct c; simpl; try done. by intros [= <-].
    + rewrite bool_decide_eq_false_2; [done|]. by intros [? ?].
Qed.

Lemma last_app_default {A} (l1 l2 : list A) (x : A) :
  default x (last (l1 ++ l2)) = default (default x (last l1)) (last l2).
Proof.
  destruct l2 as [|y l2 _] using rev_ind; [by rewrite app_nil_r|].
  by rewrite app_assoc, !last_snoc.
Qed.

Lemma scan_data_spec ds media url media' url' :
  scan_data ds media url = Ok (media', url') ->
  media_uri <$> media' = (media_uri <$> media) ++ omap entry_media_uri ds
  ∧ url' = default url (last (omap entry_link_url ds)).
Proof.
  revert media url. induction ds as [|d ds IH]; intros media url; simpl.
  { intros [= <- <-]. by rewrite app_nil_r. }
  destruct (py_contains (str "media") d) as [hm|] eqn:Hhm; simpl; [|done].
  apply py_contains_media in Hhm.
  destruct (py_contains (str "external_context") d) as [hl|] eqn:Hhl;
    [|by destruct hm; repeat step_bind].
  apply py_contains_link in Hhl.
  assert (∀ media1 url1,
    media_uri <$> media1 = (media_uri <$> media)
                           ++ option_list (entry_media_uri d) ->
    url1 = default url (entry_link_url d) ->
    scan_data ds media1 url1 = Ok (media', url') ->
    media_uri <$> media' = (media_uri <$> media)
      ++ from_option (fun y => y :: omap entry_media_uri ds)
           (omap entry_media_uri ds) (entry_media_uri d)
    ∧ url' = default url
        (last (from_option (fun y => y :: omap entry_link_url ds)
                 (omap entry_link_url ds) (entry_link_url d)))) as Hgo.
  { intros media1 url1 Hm1 -> [-> ->]%IH. rewrite Hm1, <- app_assoc. split.
    - f_equal. by destruct (entry_media_uri d).
    - destruct (entry_link_url d) as [u|]; simpl; [|done].
      change (u :: omap entry_link_url ds)
        with ([u] ++ omap entry_link_url ds).
      by rewrite last_app_default. }
  destruct hm; simpl.
  - destruct (py_getitem d (str "media")) as [m|] eqn:Hm; simpl; [|done].
    destruct (py_get m (str "uri") PNone) as [uri|] eqn:Huri; simpl; [|done].
    destruct (py_get m (str "description") (PStr [])) as [raw|] eqn:Hraw;
      simpl; [|done].
    destruct (decode_facebook_text raw) as [description|]; simpl; [|done].
    pose proof (Hhm _ _ _ eq_refl Huri Hraw) as Hmu.
    destruct hl; simpl.
    + destruct (py_getitem d (str "external_context")) as [c|] eqn:Hc;
        simpl; [|done].
      destruct (py_get c (str "url") PNone) as [u|] eqn:Hu; simpl; [|done].
      apply Hgo; [by rewrite fmap_app, Hmu|].
      by rewrite (Hhl _ _ eq_refl Hu).
    + apply Hgo; [by rewrite fmap_app, Hmu|by rewrite Hhl].
  - destruct hl; simpl.
    + destruct (py_getitem d (str "external_context")) as [c|] eqn:Hc;
        simpl; [|done].
      destruct (py_get c (str "url") PNone) as [u|] eqn:Hu; simpl; [|done].
      apply Hgo; [by rewrite Hhm, app_nil_r|].
      by rewrite (Hhl _ _ eq_refl Hu).
    + apply Hgo; [by rewrite Hhm, app_nil_r|by rewrite Hhl].
Qed.

Lemma scan_attachments_spec atts media url media' url' :
  scan_attachments atts media url = Ok (media', url') ->
  let entries :=
    atts ≫= (fun attachment =>
      match py_get attachment (str "data") (PList []) with
      | Ok data => items_of data
      | Raise _ => []
      end) in
  media_uri <$> media' = (media_uri <$> media) ++ omap entry_media_uri entries
  ∧ url' = default url (last (omap entry_link_url entries)).
Proof.
  revert media url. induction atts as [|att atts IH]; intros media url; simpl.
  { intros [= <- <-]. by rewrite app_nil_r. }
  destruct (py_get att (str "data") (PList [])) as [data|]; simpl; [|done].
  unfold items_of.
  destruct (py_iter data) as [ds|]; simpl; [|done].
  destruct (scan_data ds media url) as [[media1 url1]|] eqn:Hds; simpl; [|done].
  apply scan_data_spec in Hds as [Hm1 ->].
  intros [-> ->]%IH. rewrite Hm1, <- app_assoc, !omap_app.
  split; [done|]. by rewrite last_app_default.
Qed.

(** C6 (as amended). The media of a post are the media references of all
    [data] entries of all its attachments, in scan order. The external link
    is the [url] of the last entry that has an [external_context] (each
    such entry overwrites the link of the entries before it), absent when
    there is none. *)
Theorem parse_post_attachments (item : pyval) (p : post) :
  parse_post item = Ok p ->
  media_uri <$> post_media p = omap entry_media_uri (attachment_entries item)
  ∧ post_external_url p
    = default PNone (last (omap entry_link_url (attachment_entries item))).
Proof.
  unfold parse_post, attachment_entries.
  do 6 step_bind.
  destruct (py_get item (str "attachments") (PList [])) as [attachments|];
    simpl; [|done].
  destruct (py_iter attachments) as [atts|] eqn:Hatts; simpl; [|done].
  assert (items_of attachments = atts) as ->.
  { unfold items_of. by rewrite Hatts. }
  destruct (scan_attachments atts [] PNone) as [[media url]|] eqn:Hscan;
    simpl; [|done].
  intros [= <-]. simpl. by apply scan_attachments_spec in Hscan.
Qed.

(** The theorem at a post with two links and two pictures. *)
Lemma parse_post_attachments_witness :
  parse_post (PDict two_links_items) = Ok two_links_post
  ∧ media_uri <$> post_media two_links_post
    = [PStr (str "m/a.jpg"); PStr (str "m/b.jpg")]
  ∧ post_external_url two_links_post = PStr (str "http://second").
Proof.
  split; [reflexivity|].
  exact (parse_post_attachments (PDict two_links_items) two_links_post eq_refl).
Defined.

(** C6 fails as stated: of two links in scan order the post keeps the
    second one. *)
Lemma parse_post_keeps_last_link :
  parse_post (PDict two_links_items) = Ok two_links_post
  ∧ omap entry_link_url (attachment_entries (PDict two_links_items))
    = [PStr (str "http://first"); PStr (str "http://second")]
  ∧ post_external_url two_links_post = PStr (str "http://second")
  ∧ ¬ (∀ item p, parse_post item = Ok p ->
         post_external_url p
         = default PNone (head (omap entry_link_url (attachment_entries item)))).
Proof.
  split; [reflexivity|]. split; [reflexivity|]. split; [reflexivity|].
  intros H. specialize (H (PDict two_links_items) two_links_post eq_refl).
  vm_compute in H. discriminate H.
Qed.

(** ** Media paths *)

Lemma split_on_nonempty sep s : split_on sep s ≠ [].
Proof.
  destruct s as [|c s]; simpl; [done|].
  destruct (c =? sep); [done|]. by destruct (split_on sep s).
Qed.

Lemma split_on_no_sep sep s : sep ∉ s -> split_on sep s = [s].
Proof.
  induction s as [|c s IH]; simpl; [done|].
  intros [Hc Hs]%not_elem_of_cons.
  rewrite (proj2 (Z.eqb_neq c sep)) by done. by rewrite IH.
Qed.

Lemma split_on_app sep a b :
  split_on sep (a ++ sep :: b) = split_on sep a ++ split_on sep b.
Proof.
  induction a as [|c a IH]; simpl.
  - by rewrite Z.eqb_refl.
  - destruct (c =? sep); [by rewrite IH|].
    rewrite IH. pose proof (split_on_nonempty sep a).
    by destruct (split_on sep a).
Qed.

(** The name of a path is what follows its last slash, when that is a
    proper component. *)
Lemma path_name_last dir name :
  47 ∉ name -> name ≠ [] -> name ≠ str "." ->
  path_name (dir ++ 47 :: name) = name ∧ path_name name = name.
Proof.
  intros Hsep Hne Hdot. unfold path_name, path_parts.
  rewrite split_on_app, (split_on_no_sep _ _ Hsep), filter_app.
  assert (filter (fun x : pystr => x ≠ [] ∧ x ≠ str ".") [name] = [name]) as ->.
  { rewrite filter_cons_True; [done|by split]. }
  by rewrite last_snoc.
Qed.

(** C8 (as amended). An absent or empty reference resolves to nothing, and
    the post renderer emits no media element for it. Every non-empty
    reference resolves to [media/] followed by the last component of its
    path, and the renderer emits a media element with that source, also
    when the path has no last component. *)
Theorem get_media_path_spec :
  get_media_path PNone = Ok None
  ∧ get_media_path (PStr []) = Ok None
  ∧ (∀ s, s ≠ [] ->
       get_media_path (PStr s) = Ok (Some (str "media/" ++ path_name s)))
  ∧ (∀ dir name, 47 ∉ name -> name ≠ [] -> name ≠ str "." ->
       get_media_path (PStr (dir ++ 47 :: name)) = Ok (Some (str "media/" ++ name)))
  ∧ (∀ m rest html, truthy (media_uri m) = false ->
       post_media_html (m :: rest) html = post_media_html rest html)
  ∧ (∀ m s rest html, media_uri m = PStr s -> s ≠ [] ->
       post_media_html (m :: rest) html
       = post_media_html rest
           (html ++ media_element (str "media/" ++ path_name s)
                      (html_escape (media_description m)))).
Proof.
  assert (∀ s, s ≠ [] ->
    get_media_path (PStr s) = Ok (Some (str "media/" ++ path_name s))) as Hs.
  { intros s Hne. unfold get_media_path. simpl.
    by rewrite bool_decide_eq_false_2. }
  split; [done|]. split; [done|]. split; [exact Hs|]. split; [|split].
  - intros dir name H1 H2 H3. rewrite Hs by (by destruct dir).
    by rewrite (proj1 (path_name_last dir name H1 H2 H3)).
  - intros m rest html Hm. simpl. unfold get_media_path. by rewrite Hm.
  - intros m s rest html Hm Hne. simpl. rewrite Hm, (Hs s Hne). done.
Qed.

(** The theorem at the reference [posts/media/a.jpg]. *)
Lemma get_media_path_spec_witness :
  get_media_path (PStr (str "posts/media" ++ 47 :: str "a.jpg"))
  = Ok (Some (str "media/" ++ str "a.jpg"))
  ∧ post_media_html [sample_media] []
    = Ok (media_element (str "media/a.jpg") (str "A &amp; B")).
Proof.
  split.
  - refine (proj1 (proj2 (proj2 (proj2 get_media_path_spec)))
              (str "posts/media") (str "a.jpg") _ _ _); [|done|done].
    exact (bool_decide_unpack (47 ∉ str "a.jpg") I).
  - exact (proj2 (proj2 (proj2 (proj2 (proj2 get_media_path_spec))))
             sample_media (str "posts/media/a.jpg") [] [] eq_refl
             ltac:(discriminate)).
Defined.

(** C8 fails as stated: the path [/] has no file name, and the renderer
    still emits a media element for it, with the source [media/]. *)
Lemma post_media_html_root :
  path_name (str "/") = []
  ∧ get_media_path (PStr (str "/")) = Ok (Some (str "media/"))
  ∧ post_media_html [root_media] [] = Ok (media_element (str "media/") [])
  ∧ ¬ (∀ m s html, media_uri m = PStr s -> path_name s = [] ->
         post_media_html [m] html = Ok html).
Proof.
  split; [reflexivity|]. split; [reflexivity|]. split; [reflexivity|].
  intros H. specialize (H root_media (str "/") [] eq_refl eq_refl).
  vm_compute in H. discriminate H.
Qed.

(** ** Copying media *)

Lemma copy_walk_flat walk output copied :
  copy_walk walk output copied = copy_files (walk_files walk) output copied.
Proof.
  revert output copied. unfold walk_files.
  induction walk as [|[root files] walk IH]; intros output copied; simpl;
    [done|].
  destruct (copy_files files output copied) as [output1 copied1] eqn:H1.
  rewrite IH. clear IH. revert output copied output1 copied1 H1.
  induction files as [|[file contents] files IHf];
    intros output copied output1 copied1; simpl.
  { by intros [= -> ->]. }
  destruct (is_media_file file); [|by apply IHf].
  destruct (output !! file); by apply IHf.
Qed.

(** What one pass over the files does: the names copied are new media
    files, taken from the source; what was in the output stays; every media
    file of the source is in the output afterwards. *)
Lemma copy_files_spec (files : list (pystr * list Z))
    (output : gmap pystr (list Z)) copied output' copied' :
  copy_files files output copied = (output', copied') ->
  ∃ new, copied' = copied ++ new
    ∧ NoDup new
    ∧ (∀ f, f ∈ new ->
         is_media_file f = true ∧ output !! f = None
         ∧ ∃ c, (f, c) ∈ files ∧ output' !! f = Some c)
    ∧ (∀ f c, output !! f = Some c -> output' !! f = Some c)
    ∧ (∀ f, is_Some (output' !! f) -> is_Some (output !! f) ∨ f ∈ new)
    ∧ (∀ f c, (f, c) ∈ files -> is_media_file f = true -> is_Some (output' !! f)).
Proof.
  revert output copied.
  induction files as [|[file contents] files IH]; intros output copied; simpl.
  { intros [= <- <-]. exists []. rewrite app_nil_r.
    split; [done|]. split; [constructor|]. split; [by intros f ?%elem_of_nil|].
    split; [done|]. split; [by left|]. by intros f c ?%elem_of_nil. }
  assert (∀ copied1,
    copy_files files output copied1 = (output', copied') ->
    (is_media_file file = true -> is_Some (output !! file)) ->
    ∃ new, copied' = copied1 ++ new ∧ NoDup new
      ∧ (∀ f, f ∈ new ->
           is_media_file f = true ∧ output !! f = None
           ∧ ∃ c, (f, c) ∈ (file, contents) :: files ∧ output' !! f = Some c)
      ∧ (∀ f c, output !! f = Some c -> output' !! f = Some c)
      ∧ (∀ f, is_Some (output' !! f) -> is_Some (output !! f) ∨ f ∈ new)
      ∧ (∀ f c, (f, c) ∈ (file, contents) :: files ->
           is_media_file f = true -> is_Some (output' !! f))) as Hsame.
  { intros copied1 (new & -> & Hnd & Hnew & Hkeep & Hfrom & Hall)%IH Hfile.
    exists new. repeat (split; [done|]). split; [|split; [done|split; [done|]]].
    - intros f Hf. destruct (Hnew f Hf) as (? & ? & c & ? & ?).
      repeat (split; [done|]). exists c. split; [by right|done].
    - intros f c [[= -> ->]|Hin]%elem_of_cons Hmedia; [|by eapply Hall].
      destruct (Hfile Hmedia) as [c' Hc']. exists c'. by apply Hkeep. }
  destruct (is_media_file file) eqn:Hmedia; [|by intros ?%Hsame].
  destruct (output !! file) as [c0|] eqn:Hout.
  { intros ?%Hsame; [done|by eexists]. }
  intros (new & -> & Hnd & Hnew & Hkeep & Hfrom & Hall)%IH.
  assert (output' !! file = Some contents) as Hfile.
  { apply Hkeep. by rewrite lookup_insert_eq. }
  assert (file ∉ new) as Hfresh.
  { intros Hin. destruct (Hnew file Hin) as (_ & Hnone & _).
    by rewrite lookup_insert_eq in Hnone. }
  exists (file :: new). split; [by rewrite <- app_assoc|].
  split; [by constructor|]. split; [|split; [|split]].
  - intros f [->|Hf]%elem_of_cons.
    + repeat (split; [done|]). exists contents. split; [by left|done].
    + destruct (Hnew f Hf) as (? & Hnone & c & ? & ?).
      apply lookup_insert_None in Hnone as [? ?].
      repeat (split; [done|]). exists c. split; [by right|done].
  - intros f c Hf. apply Hkeep.
    rewrite lookup_insert_ne; [done|]. intros ->. by rewrite Hout in Hf.
  - intros f Hf. destruct (decide (f = file)) as [->|Hne]; [right; by left|].
    destruct (Hfrom f Hf) as [Hin|Hin]; [|right; by right].
    left. by rewrite lookup_insert_ne in Hin.
  - intros f c [[= -> ->]|Hin]%elem_of_cons Hm; [by eexists|by eapply Hall].
Qed.

(** A pass over files that are all in the output copies nothing. *)
Lemma copy_files_present (files : list (pystr * list Z))
    (output : gmap pystr (list Z)) copied :
  (∀ f c, (f, c) ∈ files -> is_media_file f = true -> is_Some (output !! f)) ->
  copy_files files output copied = (output, copied).
Proof.
  induction files as [|[file contents] files IH]; simpl; intros Hall; [done|].
  assert (copy_files files output copied = (output, copied)) as Hrest.
  { apply IH. intros f c Hin. apply (Hall f c). by right. }
  destruct (is_media_file file) eqn:Hmedia; [|done].
  destruct (Hall file contents ltac:(by left) Hmedia) as [c ->]. done.
Qed.

(** C9. A file is copied only when its name ends with one of the six
    lower-case suffixes and no file of that name is in the output
    directory; it is then there under its bare name with the contents of
    the source. What was in the output directory stays as it was, nothing
    else appears in it, and every media file of the source is there
    afterwards. A second run over the same source copies nothing and
    leaves the directory as it is. *)
Theorem copy_media_files_idempotent
    (source : option (list (pystr * list (pystr * list Z))))
    (output : option (gmap pystr (list Z)))
    (output' : gmap pystr (list Z)) (copied : list pystr) :
  copy_media_files source output = (output', copied) ->
  NoDup copied
  ∧ (∀ f, f ∈ copied ->
       (∃ suffix, suffix ∈ media_suffixes ∧ endswith suffix f = true)
       ∧ default ∅ output !! f = None
       ∧ ∃ c, (f, c) ∈ walk_files (default [] source) ∧ output' !! f = Some c)
  ∧ (∀ f c, default ∅ output !! f = Some c -> output' !! f = Some c)
  ∧ (∀ f, is_Some (output' !! f) ->
       is_Some (default ∅ output !! f) ∨ f ∈ copied)
  ∧ (∀ f c, (f, c) ∈ walk_files (default [] source) ->
       is_media_file f = true -> is_Some (output' !! f))
  ∧ copy_media_files source (Some output') = (output', []).
Proof.
  unfold copy_media_files. destruct source as [walk|]; simpl.
  - rewrite !copy_walk_flat.
    intros (new & -> & Hnd & Hnew & Hkeep & Hfrom & Hall)%copy_files_spec.
    simpl. split; [done|]. split; [|split; [done|split; [done|split; [done|]]]].
    + intros f Hf. destruct (Hnew f Hf) as (Hmedia & ? & ?).
      split; [|done]. unfold is_media_file in Hmedia.
      apply existsb_exists in Hmedia as (suffix & Hin & Hend).
      exists suffix. split; [by apply list_elem_of_In|done].
    + by apply copy_files_present.
  - intros [= <- <-]. split; [constructor|].
    split; [by intros f ?%elem_of_nil|]. split; [done|].
    split; [by left|]. split; [by intros f c ?%elem_of_nil|done].
Qed.

(** The theorem at a source of two directories and no output directory:
    two files are copied, and a second run copies none. *)
Lemma copy_media_files_idempotent_witness :
  (copy_media_files (Some sample_walk) None).2 = [str "a.jpg"; str "c.webp"]
  ∧ (copy_media_files (Some sample_walk) None).1 !! str "a.jpg" = Some [1; 2]
  ∧ copy_media_files (Some sample_walk)
      (Some (copy_media_files (Some sample_walk) None).1)
    = ((copy_media_files (Some sample_walk) None).1, []).
Proof.
  split; [reflexivity|]. split; [reflexivity|].
  exact (proj2 (proj2 (proj2 (proj2 (proj2
    (copy_media_files_idempotent (Some sample_walk) None _ _
       (surjective_pairing _))))))).
Defined.

(** The suffix test is case-sensitive and looks at the end of the name. *)
Example is_media_file_examples :
  is_media_file (str "a.jpg") = true
  ∧ is_media_file (str "B.JPG") = false
  ∧ is_media_file (str "notes.txt") = false
  ∧ is_media_file (str "a.jpg.bak") = false.
Proof. done. Qed.

(** ** Links *)

Lemma startswith_app p s : startswith p (p ++ s) = true.
Proof. induction p as [|c p IH]; simpl; [done|]. by rewrite Z.eqb_refl. Qed.

Lemma startswith_inv p s : startswith p s = true -> s = p ++ drop (length p) s.
Proof.
  revert s. induction p as [|c p IH]; intros [|x s]; simpl; try done.
  intros [->%Z.eqb_eq Hp]%andb_true_iff. f_equal. by apply IH.
Qed.

Lemma rmatch_lit_inv l s k r :
  rmatch (RLit l) s k = Some r -> ∃ s', s = l ++ s' ∧ k s' = Some r.
Proof.
  simpl. destruct (startswith l s) eqn:Hl; [|done].
  intros Hk. exists (drop (length l) s). split; [by apply startswith_inv|done].
Qed.

Lemma rmatch_lit_app l s k : rmatch (RLit l) (l ++ s) k = k s.
Proof. simpl. by rewrite startswith_app, drop_app_length. Qed.

(** The greedy repetition consumes characters outside the excluded set
    only, and hands what is left to the continuation. *)
Lemma star_not_inv ex s k r :
  star_not ex s k = Some r ->
  ∃ body rest, s = body ++ rest ∧ Forall (fun c => ex c = false) body
               ∧ k rest = Some r.
Proof.
  induction s as [|c s IH]; simpl.
  { intros Hk. by exists [], []. }
  destruct (ex c) eqn:Hc; [intros Hk; by exists [], (c :: s)|].
  destruct (star_not ex s k) as [r'|] eqn:Hs.
  - intros [= <-]. destruct (IH eq_refl) as (body & rest & -> & Hb & Hk).
    exists (c :: body), rest. split; [done|]. split; [by constructor|done].
  - intros Hk. by exists [], (c :: s).
Qed.

Lemma star_not_greedy ex body rest k r :
  Forall (fun c => ex c = false) body -> run_ends ex rest ->
  k rest = Some r ->
  star_not ex (body ++ rest) k = Some r.
Proof.
  intros Hbody Hrest Hk. induction Hbody as [|c body Hc _ IH]; simpl.
  - destruct rest as [|c rest]; [done|]. simpl in *. by rewrite Hrest.
  - by rewrite Hc, IH.
Qed.

(** With a continuation that accepts everything, the repetition stops where
    the run ends. *)
Lemma star_not_all ex s rest :
  star_not ex s Some = Some rest ->
  ∃ body, s = body ++ rest ∧ Forall (fun c => ex c = false) body
          ∧ run_ends ex rest.
Proof.
  revert rest. induction s as [|c s IH]; intros rest; simpl.
  { intros [= <-]. by exists []. }
  destruct (ex c) eqn:Hc.
  { intros [= <-]. exists []. by simpl. }
  destruct (star_not ex s Some) as [r'|] eqn:Hs; [|].
  - intros [= <-]. destruct (IH _ eq_refl) as (body & -> & Hb & He).
    exists (c :: body). split; [done|]. split; [by constructor|done].
  - intros [= <-]. exfalso. clear IH.
    induction s as [|x s IHs]; simpl in Hs; [done|].
    destruct (ex x); [done|]. by destruct (star_not ex s Some).
Qed.

Lemma plus_not_inv ex s k r :
  rmatch (RPlusNot ex) s k = Some r ->
  ∃ body rest, s = body ++ rest ∧ body ≠ []
               ∧ Forall (fun c => ex c = false) body ∧ k rest = Some r.
Proof.
  destruct s as [|c s]; simpl; [done|].
  destruct (ex c) eqn:Hc; [done|].
  intros (body & rest & -> & Hb & Hk)%star_not_inv.
  exists (c :: body), rest. split; [done|]. split; [done|].
  split; [by constructor|done].
Qed.

Lemma plus_not_all ex s rest :
  rmatch (RPlusNot ex) s Some = Some rest ->
  ∃ body, s = body ++ rest ∧ body ≠ []
          ∧ Forall (fun c => ex c = false) body ∧ run_ends ex rest.
Proof.
  destruct s as [|c s]; simpl; [done|].
  destruct (ex c) eqn:Hc; [done|].
  intros (body & -> & Hb & He)%star_not_all.
  exists (c :: body). split; [done|]. split; [done|].
  split; [by constructor|done].
Qed.

Lemma plus_not_greedy ex body rest k r :
  body ≠ [] -> Forall (fun c => ex c = false) body -> run_ends ex rest ->
  k rest = Some r ->
  rmatch (RPlusNot ex) (body ++ rest) k = Some r.
Proof.
  intros Hne Hbody Hrest Hk. destruct Hbody as [|c body Hc Hbody]; [done|].
  simpl. rewrite Hc. by apply star_not_greedy.
Qed.

(** A match of the URL pattern starts with one of the two schemes, and the
    rest of it is matched by the character class. *)
Lemma url_pattern_inv s k r :
  rmatch url_pattern s k = Some r ->
  ∃ scheme s', s = scheme ++ s' ∧ scheme ∈ url_schemes
               ∧ rmatch (RPlusNot url_excluded) s' k = Some r.
Proof.
  unfold url_pattern.
  change (rmatch (RSeq ?a ?b) s k) with (rmatch a s (fun s' => rmatch b s' k)).
  intros (s1 & -> & H1)%rmatch_lit_inv.
  change (rmatch (RSeq (ROpt ?a) ?b) s1 k)
    with (match rmatch a s1 (fun s' => rmatch b s' k) with
          | Some rest => Some rest
          | None => rmatch b s1 k
          end) in H1.
  destruct (rmatch (RLit (str "s")) s1 _) as [x|] eqn:Hs.
  - injection H1 as ->. apply rmatch_lit_inv in Hs as (s2 & -> & H2).
    change (rmatch (RSeq ?a ?b) s2 k)
      with (rmatch a s2 (fun s' => rmatch b s' k)) in H2.
    apply rmatch_lit_inv in H2 as (s3 & -> & H3).
    exists (str "https://"), s3. split; [done|]. split; [|done].
    apply elem_of_cons. right. apply elem_of_cons. by left.
  - change (rmatch (RSeq ?a ?b) s1 k)
      with (rmatch a s1 (fun s' => rmatch b s' k)) in H1.
    apply rmatch_lit_inv in H1 as (s3 & -> & H3).
    exists (str "http://"), s3. split; [done|]. split; [|done].
    apply elem_of_cons. by left.
Qed.

Lemma url_pattern_intro scheme s' k r :
  scheme ∈ url_schemes ->
  rmatch (RPlusNot url_excluded) s' k = Some r ->
  rmatch url_pattern (scheme ++ s') k = Some r.
Proof.
  intros Hscheme Hplus. unfold url_schemes in Hscheme.
  apply elem_of_cons in Hscheme as [->|Hscheme].
  - destruct s' as [|c s']; [done|]. simpl in *. by rewrite Hplus.
  - apply elem_of_cons in Hscheme as [->|Hscheme];
      [|by apply elem_of_nil in Hscheme].
    destruct s' as [|c s']; [done|]. simpl in *. by rewrite Hplus.
Qed.

Lemma scheme_admissible scheme :
  scheme ∈ url_schemes ->
  scheme ≠ [] ∧ Forall (fun c => url_excluded c = false) scheme.
Proof.
  unfold url_schemes. intros [->|[->|[]%elem_of_nil]%elem_of_cons]%elem_of_cons;
    (split; [done|]); repeat constructor.
Qed.

(** What matches the pattern in full: a scheme and at least one admissible
    character. *)
Lemma fullmatch_url_inv u :
  fullmatch url_pattern u = true ->
  ∃ scheme body, u = scheme ++ body ∧ scheme ∈ url_schemes ∧ body ≠ []
                 ∧ Forall (fun c => url_excluded c = false) body.
Proof.
  unfold fullmatch.
  destruct (rmatch url_pattern u _) as [r|] eqn:Hm; [|done]. intros _.
  apply url_pattern_inv in Hm as (scheme & s' & -> & Hs & Hp).
  apply plus_not_inv in Hp as (body & rest & -> & Hne & Hb & Hk).
  destruct rest; [|done]. exists scheme, body. by rewrite app_nil_r.
Qed.

Lemma fullmatch_url_intro scheme body :
  scheme ∈ url_schemes -> body ≠ [] ->
  Forall (fun c => url_excluded c = false) body ->
  fullmatch url_pattern (scheme ++ body) = true.
Proof.
  intros Hs Hne Hb. unfold fullmatch.
  rewrite (url_pattern_intro scheme body _ [] Hs); [done|].
  rewrite <- (app_nil_r body). by apply plus_not_greedy.
Qed.

Lemma fullmatch_url_admissible u :
  fullmatch url_pattern u = true ->
  u ≠ [] ∧ Forall (fun c => url_excluded c = false) u.
Proof.
  intros (scheme & body & -> & Hs & Hne & Hb)%fullmatch_url_inv.
  destruct (scheme_admissible scheme Hs) as [? ?].
  split; [by destruct scheme|]. by apply Forall_app.
Qed.

(** The match found at a position is a full match of the pattern, runs to
    the end of the admissible characters, and is not empty. *)
Lemma re_match_url_inv s m rest :
  re_match url_pattern s = Some (m, rest) ->
  s = m ++ rest ∧ fullmatch url_pattern m = true ∧ run_ends url_excluded rest.
Proof.
  unfold re_match.
  destruct (rmatch url_pattern s Some) as [r|] eqn:Hm; [|done].
  apply url_pattern_inv in Hm as (scheme & s' & -> & Hs & Hp).
  apply plus_not_all in Hp as (body & -> & Hne & Hb & He).
  intros [= <- <-].
  assert (take (length (scheme ++ body ++ r) - length r) (scheme ++ body ++ r)
          = scheme ++ body) as ->.
  { rewrite app_assoc, length_app, Nat.add_sub. by rewrite take_app_length. }
  split; [by rewrite app_assoc|]. split; [|done].
  by apply fullmatch_url_intro.
Qed.

Lemma admissible_run ex (s : pystr) :
  ∃ run rest, s = run ++ rest ∧ Forall (fun c => ex c = false) run
              ∧ run_ends ex rest.
Proof.
  induction s as [|c s (run & rest & -> & Hrun & Hrest)].
  { by exists [], []. }
  destruct (ex c) eqn:Hc.
  - by exists [], (c :: run ++ rest).
  - exists (c :: run), rest. split; [done|]. split; [by constructor|done].
Qed.

(** Where a full match of the pattern starts, the scan finds a match. *)
Lemma re_match_url_starts u b :
  fullmatch url_pattern u = true ->
  ∃ m rest, re_match url_pattern (u ++ b) = Some (m, rest).
Proof.
  intros (scheme & body & -> & Hs & Hne & Hb)%fullmatch_url_inv.
  destruct (admissible_run url_excluded b) as (run & rest & -> & Hrun & Hrest).
  unfold re_match.
  assert (rmatch url_pattern ((scheme ++ body) ++ run ++ rest) Some = Some rest)
    as ->; [|by eexists _, _].
  rewrite <- app_assoc. apply url_pattern_intro; [done|].
  rewrite app_assoc. apply plus_not_greedy; [by destruct body| |done..].
  by apply Forall_app.
Qed.

Lemma re_scan_skip pattern m r :
  re_scan pattern (length m) (m ++ r) = re_scan pattern 0 r.
Proof.
  induction m as [|c m IH]; simpl; [|done].
  destruct r as [|c r]; [done|]. done.
Qed.

(** The scan of [re.sub] follows the steps of [url_scan]. *)
Lemma re_scan_url_scan text : url_scan text (re_scan url_pattern 0 text).
Proof.
  induction text as [text IH] using (induction_ltof1 _ length).
  unfold ltof in IH. destruct text as [|c t]; [constructor|].
  cbn [re_scan].
  destruct (re_match url_pattern (c :: t)) as [[m rest]|] eqn:Hm.
  - pose proof Hm as (Heq & Hfull & Hend)%re_match_url_inv.
    apply fullmatch_url_admissible in Hfull as [Hne _].
    destruct m as [|c' m']; [done|]. simpl in Heq. injection Heq as <- ->.
    rewrite re_scan_skip.
    apply (url_scan_match (c :: m') rest); [done|done|].
    apply IH. simpl. rewrite length_app. lia.
  - apply url_scan_plain; [done|]. apply IH. simpl. lia.
Qed.

Lemma url_scan_text text cs : url_scan text cs -> cs ≫= chunk_text = text.
Proof.
  induction 1 as [|c t cs _ _ IH|m r cs _ _ _ IH]; [done|..].
  - by rewrite bind_cons, IH.
  - by rewrite bind_cons, IH.
Qed.

Lemma url_scan_matched text cs m :
  url_scan text cs -> Matched m ∈ cs -> fullmatch url_pattern m = true.
Proof.
  induction 1 as [|c t cs _ _ IH|m' r cs _ Hm _ IH].
  - by intros ?%elem_of_nil.
  - intros [[=]|Hin]%elem_of_cons. by apply IH.
  - intros [[= ->]|Hin]%elem_of_cons; [|by apply IH].
    by apply re_match_url_inv in Hm as (_ & ? & _).
Qed.

(** Every piece of the text that matches the pattern lies within one of the
    matches the scan cuts out. *)
Lemma url_scan_covers text cs :
  url_scan text cs ->
  ∀ a u b, text = a ++ u ++ b -> fullmatch url_pattern u = true ->
    ∃ pre m post a' b',
      cs = pre ++ Matched m :: post
      ∧ a = (pre ≫= chunk_text) ++ a'
      ∧ m = a' ++ u ++ b'
      ∧ b = b' ++ (post ≫= chunk_text).
Proof.
  induction 1 as [|c t cs Hnone _ IH|m r cs Hne Hm Hscan IH]; intros a u b Heq Hu.
  - apply fullmatch_url_admissible in Hu as [Hu _].
    symmetry in Heq. apply app_eq_nil in Heq as [_ [? _]%app_eq_nil]. done.
  - destruct a as [|x a].
    + simpl in Heq. rewrite Heq in Hnone.
      destruct (re_match_url_starts u b Hu) as (m & rest & Hm). congruence.
    + simpl in Heq. injection Heq as <- ->.
      destruct (IH a u b eq_refl Hu) as (pre & m & post & a' & b' & -> & -> & -> & ->).
      exists (Plain c :: pre), (a' ++ u ++ b'), post, a', b'.
      by rewrite bind_cons.
  - apply re_match_url_inv in Hm as (_ & Hfull & Hend).
    apply fullmatch_url_admissible in Hfull as [_ Hadm].
    pose proof (fullmatch_url_admissible u Hu) as [Hune Huadm].
    apply app_eq_inv in Heq as [(k & -> & Hk)|(k & -> & ->)].
    + (* the piece starts inside the match *)
      apply app_eq_inv in Hk as [(k' & -> & ->)|(k' & -> & ->)].
      * (* it cannot run past the end of the match *)
        destruct k' as [|x k'].
        { exists [], (a ++ k), cs, a, []. simpl.
          rewrite (url_scan_text _ _ Hscan). by rewrite !app_nil_r. }
        exfalso. simpl in Hend.
        apply Forall_app in Huadm as [_ Hx]. inversion Hx; congruence.
      * exists [], (a ++ u ++ k'), cs, a, k'.
        by rewrite (url_scan_text _ _ Hscan).
    + (* the piece starts behind the match *)
      destruct (IH k u b eq_refl Hu) as (pre & m' & post & a' & b' & -> & -> & -> & ->).
      exists (Matched m :: pre), (a' ++ u ++ b'), post, a', b'.
      by rewrite bind_cons, <- app_assoc.
Qed.

Lemma linkify_chunks text :
  linkify text = re_scan url_pattern 0 text ≫= render_chunk link_template.
Proof. unfold linkify. by case_bool_decide; subst. Qed.

Lemma render_chunk_anchor c :
  render_chunk link_template c
  = match c with Plain x => [x] | Matched m => anchor m end.
Proof.
  destruct c as [x|m]; [done|]. vm_compute. reflexivity.
Qed.

Lemma render_chunks_anchor (cs : list chunk) :
  cs ≫= render_chunk link_template
  = cs ≫= (fun c => match c with Plain x => [x] | Matched m => anchor m end).
Proof.
  induction cs as [|c cs IH]; [done|].
  by rewrite !bind_cons, IH, render_chunk_anchor.
Qed.

(** C7. On the example the result is the text with one anchor element
    around the URL, its [href] and its label both the URL, opening in a new
    browsing context with [rel] [noopener], and [Visit ] and [ now] as they
    were. In general [linkify] cuts the text into pieces that make up the
    text again, copies the single characters, and wraps the other pieces in
    that anchor; every wrapped piece matches the URL pattern, and every
    piece of the text that matches the pattern and lies in no longer one
    that matches is wrapped. *)
Theorem linkify_spec :
  linkify (str "Visit https://example.com/page now")
  = str "Visit "
    ++ tpl "<a href='https://example.com/page' target='_blank' rel='noopener'>"
    ++ str "https://example.com/page</a>"
    ++ str " now"
  ∧ ∀ text,
      let chunks := re_scan url_pattern 0 text in
      linkify text
      = chunks ≫= (fun c => match c with
                            | Plain x => [x]
                            | Matched m => anchor m
                            end)
      ∧ chunks ≫= chunk_text = text
      ∧ (∀ m, Matched m ∈ chunks -> fullmatch url_pattern m = true)
      ∧ (∀ a u b,
           text = a ++ u ++ b ->
           fullmatch url_pattern u = true ->
           (∀ a1 a2 b1 b2, a = a1 ++ a2 -> b = b1 ++ b2 ->
              fullmatch url_pattern (a2 ++ u ++ b1) = true ->
              a2 = [] ∧ b1 = []) ->
           ∃ pre post,
             chunks = pre ++ Matched u :: post
             ∧ a = pre ≫= chunk_text
             ∧ b = post ≫= chunk_text).
Proof.
  split; [reflexivity|]. intros text chunks. subst chunks.
  pose proof (re_scan_url_scan text) as Hscan.
  split; [|split; [|split]].
  - rewrite linkify_chunks. apply render_chunks_anchor.
  - exact (url_scan_text _ _ Hscan).
  - intros m. exact (url_scan_matched _ _ m Hscan).
  - intros a u b Heq Hu Hmax.
    destruct (url_scan_covers _ _ Hscan a u b Heq Hu)
      as (pre & m & post & a' & b' & Hcs & Ha & Hm & Hb).
    assert (fullmatch url_pattern m = true) as Hfull.
    { apply (url_scan_matched _ _ _ Hscan). rewrite Hcs.
      apply elem_of_app. right. apply elem_of_cons. by left. }
    rewrite Hm in Hfull.
    destruct (Hmax _ _ _ _ Ha Hb Hfull) as [-> ->].
    exists pre, post. rewrite Hcs, Hm, Ha, Hb.
    by rewrite !app_nil_r.
Qed.

(** The theorem at the example: the URL is a piece that matches and lies in
    no longer one, since a space stands on either side of it. *)
Lemma linkify_spec_witness :
  fullmatch url_pattern (str "https://example.com/page") = true
  ∧ ∃ pre post,
      re_scan url_pattern 0 (str "Visit https://example.com/page now")
      = pre ++ Matched (str "https://example.com/page") :: post
      ∧ str "Visit " = pre ≫= chunk_text
      ∧ str " now" = post ≫= chunk_text.
Proof.
  split; [reflexivity|].
  refine (proj2 (proj2 (proj2 (proj2 linkify_spec
            (str "Visit https://example.com/page now"))))
            (str "Visit ") (str "https://example.com/page") (str " now")
            eq_refl eq_refl _).
  intros a1 a2 b1 b2 Ha Hb Hf.
  apply fullmatch_url_admissible in Hf as [_ Hf].
  apply Forall_app in Hf as [Ha2 Hf]. apply Forall_app in Hf as [_ Hb1].
  split.
  - destruct a2 as [|x a2 _] using rev_ind; [done|]. exfalso.
    change (str "Visit ") with (str "Visit" ++ [32]) in Ha.
    rewrite app_assoc in Ha. apply app_inj_tail in Ha as [_ <-].
    apply Forall_app in Ha2 as [_ Hx]. inversion Hx as [|? ? H32 ?].
    discriminate H32.
  - destruct b1 as [|x b1]; [done|]. exfalso.
    injection Hb as <- _. inversion Hb1 as [|? ? H32 ?]. discriminate H32.
Defined.

(** * Further properties *)

(** ** Text decoding *)

Lemma utf8_decode_ascii s :
  Forall (fun c => 0 <= c < 128) s -> utf8_decode s = Some s.
Proof.
  induction 1 as [|c s Hc _ IH]; [done|].
  simpl. decide_tests. simpl. by rewrite IH.
Qed.

(** X1. Text that holds ASCII characters only is returned as it is. *)
Theorem decode_facebook_text_ascii (s : pystr) :
  Forall (fun c => 0 <= c < 128) s -> decode_facebook_text (PStr s) = Ok s.
Proof.
  intros Hs. unfold decode_facebook_text, latin1_encode.
  assert (forallb (fun c => (0 <=? c) && (c <? 256)) s = true) as ->.
  { induction Hs as [|c s Hc _ IH]; [done|]. simpl. rewrite IH.
    by decide_tests. }
  by rewrite utf8_decode_ascii.
Qed.

Lemma decode_facebook_text_ascii_witness :
  Forall (fun c => 0 <= c < 128) (str "Untitled Album")
  ∧ decode_facebook_text (PStr (str "Untitled Album")) = Ok (str "Untitled Album").
Proof.
  assert (Forall (fun c => 0 <= c < 128) (str "Untitled Album")) as H.
  { repeat constructor; done. }
  split; [exact H|]. exact (decode_facebook_text_ascii _ H).
Defined.

Lemma utf8_decode_length bs :
  ∀ t, utf8_decode bs = Some t -> (length t <= length bs)%nat.
Proof.
  induction bs as [bs IH] using (induction_ltof1 _ length). unfold ltof in IH.
  intros t. destruct bs as [|b0 r0]; simpl; [by intros [= <-]|].
  repeat case_match; try done;
    intros (t' & Ht' & ->)%fmap_Some; apply IH in Ht'; simpl in *; lia.
Qed.

(** X2. Decoding never makes a text longer: what comes back has at most as
    many characters as what went in. *)
Theorem decode_facebook_text_length (s t : pystr) :
  decode_facebook_text (PStr s) = Ok t -> (length t <= length s)%nat.
Proof.
  unfold decode_facebook_text.
  destruct (latin1_encode s) as [bs|] eqn:Hl; [|by intros [= <-]].
  apply latin1_encode_Some in Hl as ->.
  destruct (utf8_decode s) as [u|] eqn:Hu; intros [= <-]; [|done].
  by apply utf8_decode_length.
Qed.

Lemma decode_facebook_text_length_witness :
  decode_facebook_text (PStr [0x54; 0xC3; 0xA9; 0x73; 0x74])
  = Ok [0x54; 0xE9; 0x73; 0x74]
  ∧ (length [0x54; 0xE9; 0x73; 0x74] <= length [0x54; 0xC3; 0xA9; 0x73; 0x74])%nat.
Proof.
  split; [reflexivity|].
  exact (decode_facebook_text_length [0x54; 0xC3; 0xA9; 0x73; 0x74]
           [0x54; 0xE9; 0x73; 0x74] eq_refl).
Defined.

(** ** HTML escaping *)

Lemma escape_char_safe c :
  Forall (fun x => x ≠ 60 ∧ x ≠ 62 ∧ x ≠ 34 ∧ x ≠ 39) (escape_char c).
Proof.
  unfold escape_char.
  repeat (case_match; [repeat constructor; done|]).
  bool_hyps. by repeat constructor.
Qed.

Lemma html_escape_chars (s : pystr) :
  Forall (fun x => x ≠ 60 ∧ x ≠ 62 ∧ x ≠ 34 ∧ x ≠ 39) (html_escape s).
Proof.
  induction s as [|c s IH]; [constructor|].
  rewrite html_escape_cons. apply Forall_app. split; [|done].
  apply escape_char_safe.
Qed.

(** X3. Escaped text holds no angle bracket, no double quote and no
    apostrophe, and so does the paragraph of a post apart from the markup
    the renderer writes itself: what [linkify] is given is free of them. *)
Theorem html_escape_safe (s : pystr) :
  Forall (fun x => x ≠ 60 ∧ x ≠ 62 ∧ x ≠ 34 ∧ x ≠ 39) (html_escape s)
  ∧ (s ≠ [] ->
     post_text_html s = str "<p>" ++ linkify (html_escape s) ++ str "</p>").
Proof.
  split; [apply html_escape_chars|].
  intros Hs. unfold post_text_html. simpl.
  by rewrite bool_decide_eq_false_2.
Qed.

Lemma html_escape_safe_witness :
  html_escape (str "<b>'hi'</b>") = str "&lt;b&gt;&#x27;hi&#x27;&lt;/b&gt;"
  ∧ post_text_html (str "<b>'hi'</b>")
    = str "<p>" ++ linkify (html_escape (str "<b>'hi'</b>")) ++ str "</p>".
Proof.
  split; [reflexivity|].
  exact (proj2 (html_escape_safe (str "<b>'hi'</b>")) ltac:(discriminate)).
Defined.

Lemma escape_char_inj c d x y :
  escape_char c ++ x = escape_char d ++ y -> c = d ∧ x = y.
Proof.
  unfold escape_char.
  destruct (Z.eqb_spec c 38) as [->|]; [|destruct (Z.eqb_spec c 60) as [->|];
    [|destruct (Z.eqb_spec c 62) as [->|]; [|destruct (Z.eqb_spec c 34) as [->|];
    [|destruct (Z.eqb_spec c 39) as [->|]]]]];
  (destruct (Z.eqb_spec d 38) as [->|]; [|destruct (Z.eqb_spec d 60) as [->|];
    [|destruct (Z.eqb_spec d 62) as [->|]; [|destruct (Z.eqb_spec d 34) as [->|];
    [|destruct (Z.eqb_spec d 39) as [->|]]]]]);
  simpl; intros H; try discriminate H; try (injection H as H; by subst);
    injection H; intros; subst; done.
Qed.

(** X4. Escaping loses nothing: two texts with the same escape are the same
    text. *)
Theorem html_escape_inj (s t : pystr) :
  html_escape s = html_escape t -> s = t.
Proof.
  revert t. induction s as [|c s IH]; intros [|d t].
  - done.
  - rewrite html_escape_cons. intros H. exfalso.
    destruct (escape_char_cases d) as [[_ Hd]|[_ (u & Hd & _)]];
      rewrite Hd in H; discriminate H.
  - rewrite html_escape_cons. intros H. exfalso.
    destruct (escape_char_cases c) as [[_ Hc]|[_ (u & Hc & _)]];
      rewrite Hc in H; discriminate H.
  - rewrite !html_escape_cons. intros [-> H]%escape_char_inj.
    f_equal. by apply IH.
Qed.

Lemma html_escape_inj_witness :
  html_escape (str "a<b") = html_escape (str "a" ++ str "<b")
  ∧ str "a<b" = str "a" ++ str "<b".
Proof.
  split; [reflexivity|].
  exact (html_escape_inj (str "a<b") (str "a" ++ str "<b") eq_refl).
Defined.

(** ** Links *)

Lemma re_match_url_http s m rest :
  re_match url_pattern s = Some (m, rest) -> startswith (str "http") s = true.
Proof.
  unfold re_match.
  destruct (rmatch url_pattern s Some) as [r|] eqn:Hm; [|done]. intros _.
  apply url_pattern_inv in Hm as (scheme & s' & -> & Hs & _).
  unfold url_schemes in Hs.
  apply elem_of_cons in Hs as [->|Hs]; [done|].
  apply elem_of_cons in Hs as [->|Hs]; [done|]. by apply elem_of_nil in Hs.
Qed.

Lemma re_scan_no_http text :
  str_contains (str "http") text = false ->
  re_scan url_pattern 0 text = Plain <$> text.
Proof.
  induction text as [|c t IH]; [done|].
  intros Hc. cbn [str_contains] in Hc.
  apply orb_false_iff in Hc as [Hstart Hrest].
  cbn [re_scan]. rewrite fmap_cons, <- (IH Hrest).
  destruct (re_match url_pattern (c :: t)) as [[m rest]|] eqn:Hm; [|done].
  apply re_match_url_http in Hm. congruence.
Qed.

(** X5. A text in which [http] does not occur comes back from [linkify]
    unchanged. *)
Theorem linkify_no_http (text : pystr) :
  str_contains (str "http") text = false -> linkify text = text.
Proof.
  intros Hc. rewrite linkify_chunks, (re_scan_no_http _ Hc).
  clear Hc. induction text as [|c t IH]; [done|].
  by rewrite fmap_cons, bind_cons, IH.
Qed.

Lemma linkify_no_http_witness :
  str_contains (str "http") (str "see ftp://example.com <soon>") = false
  ∧ linkify (str "see ftp://example.com <soon>")
    = str "see ftp://example.com <soon>".
Proof.
  split; [reflexivity|].
  exact (linkify_no_http (str "see ftp://example.com <soon>") eq_refl).
Defined.

(** X6. Every URL [linkify] wraps starts with [http://] or [https://] and
    holds no whitespace, no double quote and no angle bracket, so it cannot
    end the [href] attribute it is written into. *)
Theorem linkify_url_chars (text m : pystr) :
  Matched m ∈ re_scan url_pattern 0 text ->
  (startswith (str "http://") m = true ∨ startswith (str "https://") m = true)
  ∧ Forall (fun c => is_space c = false ∧ c ≠ 34 ∧ c ≠ 60 ∧ c ≠ 62) m.
Proof.
  intros Hin.
  pose proof (url_scan_matched _ _ m (re_scan_url_scan text) Hin) as Hfull.
  split.
  - apply fullmatch_url_inv in Hfull as (scheme & body & -> & Hs & _).
    unfold url_schemes in Hs.
    apply elem_of_cons in Hs as [->|Hs]; [left; apply startswith_app|].
    apply elem_of_cons in Hs as [->|Hs]; [right; apply startswith_app|].
    by apply elem_of_nil in Hs.
  - apply fullmatch_url_admissible in Hfull as [_ Hadm].
    eapply Forall_impl; [exact Hadm|]. intros c Hc. unfold url_excluded in Hc.
    apply orb_false_iff in Hc as [Hsp Hset]. split; [done|].
    apply bool_decide_eq_false in Hset.
    repeat split; intros ->; apply Hset;
      repeat first [ by apply list_elem_of_here | apply list_elem_of_further ].
Qed.

Lemma linkify_url_chars_witness :
  Matched (str "https://example.com/page")
    ∈ re_scan url_pattern 0 (str "Visit https://example.com/page now")
  ∧ startswith (str "https://") (str "https://example.com/page") = true.
Proof.
  assert (Matched (str "https://example.com/page")
            ∈ re_scan url_pattern 0 (str "Visit https://example.com/page now"))
    as Hin.
  { change (re_scan url_pattern 0 (str "Visit https://example.com/page now"))
      with ((Plain <$> str "Visit ")
            ++ Matched (str "https://example.com/page")
            :: (Plain <$> str " now")).
    apply elem_of_app. right. apply elem_of_cons. by left. }
  split; [exact Hin|].
  destruct (proj1 (linkify_url_chars _ _ Hin)) as [H|H]; [discriminate H|exact H].
Defined.

Lemma anchor_sublist m : m `sublist_of` anchor m.
Proof.
  unfold anchor. apply sublist_inserts_l, sublist_inserts_r. done.
Qed.

(** X7. [linkify] only adds to the text: the characters of the text are
    all in the result, in their order. *)
Theorem linkify_sublist (text : pystr) : text `sublist_of` linkify text.
Proof.
  rewrite linkify_chunks, render_chunks_anchor.
  rewrite <- (url_scan_text _ _ (re_scan_url_scan text)) at 1.
  induction (re_scan url_pattern 0 text) as [|c cs IH]; [done|].
  rewrite !bind_cons. apply sublist_app; [|done].
  destruct c as [x|m]; [done|]. apply anchor_sublist.
Qed.

(** ** Posts *)

Lemma parse_posts_inv items posts result :
  parse_posts items posts = Ok result ->
  ∃ new, result = posts ++ new
         ∧ Forall2 (fun item p => parse_post item = Ok p) items new.
Proof.
  revert posts. induction items as [|item items IH]; intros posts; simpl.
  { intros [= <-]. exists []. by rewrite app_nil_r. }
  destruct (parse_post item) as [p|] eqn:Hp; simpl; [|done].
  intros (new & -> & Hnew)%IH. exists (p :: new).
  split; [by rewrite <- app_assoc|]. by constructor.
Qed.

Lemma parse_post_is_dict item p : parse_post item = Ok p -> is_dict item = true.
Proof. by destruct item. Qed.

Lemma load_posts_inv file posts :
  load_posts file = Ok posts ->
  truthy (load_json file) = true ->
  ∃ items parsed,
    py_iter (load_json file) = Ok items
    ∧ Forall2 (fun item p => parse_post item = Ok p) items parsed
    ∧ sort_reverse post_timestamp parsed = Ok posts.
Proof.
  unfold load_posts. intros Hload Ht. rewrite Ht in Hload. simpl in Hload.
  destruct (py_iter (load_json file)) as [items|]; simpl in Hload; [|done].
  destruct (parse_posts items []) as [parsed|] eqn:Hp; simpl in Hload; [|done].
  apply parse_posts_inv in Hp as (new & -> & Hnew).
  by exists items, new.
Qed.



Lemma py_lt_same_int n a b :
  a = PInt n -> b = PInt n -> py_lt a b = Ok false.
Proof. intros -> ->. simpl. by rewrite Z.ltb_irrefl. Qed.

Lemma insert_desc_filter n (x : post) l l' :
  insert_desc post_timestamp x l = Ok l' ->
  List.filter (has_timestamp n) l'
  = List.filter (has_timestamp n) (x :: l).
Proof.
  revert l'. induction l as [|y l IH]; intros l'; simpl.
  { by intros [= <-]. }
  destruct (py_lt (post_timestamp x) (post_timestamp y)) as [[]|] eqn:Hlt;
    simpl; [| |done].
  - destruct (insert_desc post_timestamp x l) as [r|] eqn:Hr; simpl; [|done].
    intros [= <-]. simpl. rewrite (IH r eq_refl). simpl.
    destruct (has_timestamp n x) eqn:Hx, (has_timestamp n y) eqn:Hy; try done.
    exfalso. unfold has_timestamp in Hx, Hy.
    destruct (post_timestamp x) as [| |a| | | |] eqn:Hxa; try done.
    destruct (post_timestamp y) as [| |b| | | |] eqn:Hyb; try done.
    bool_hyps. subst. simpl in Hlt. rewrite Z.ltb_irrefl in Hlt. done.
  - by intros [= <-].
Qed.

Lemma sort_reverse_filter n (l l' : list post) :
  sort_reverse post_timestamp l = Ok l' ->
  List.filter (has_timestamp n) l' = List.filter (has_timestamp n) l.
Proof.
  revert l'. induction l as [|x l IH]; intros l'; simpl.
  { by intros [= <-]. }
  destruct (sort_reverse post_timestamp l) as [s|]; simpl; [|done].
  intros Hins%(insert_desc_filter n). rewrite Hins. simpl.
  by rewrite (IH s eq_refl).
Qed.

Lemma parse_posts_all items parsed posts :
  Forall2 (fun item p => parse_post item = Ok p) items parsed ->
  parse_posts items posts = Ok (posts ++ parsed).
Proof.
  intros H. revert posts.
  induction H as [|item p items parsed Hp _ IH]; intros posts; simpl.
  { by rewrite app_nil_r. }
  rewrite Hp. simpl. by rewrite IH, <- app_assoc.
Qed.

(** X9. On an array of items whose timestamps are all integers or absent
    the sort raises nothing and is stable: [load_posts] returns, and the
    posts that share a timestamp are returned in the order they have in
    the file. *)
Theorem load_posts_stable (items : list pyval) (parsed : list post) (n : Z) :
  Forall2 (fun item p => parse_post item = Ok p) items parsed ->
  Forall (fun p => ∃ m, post_timestamp p = PInt m) parsed ->
  ∃ posts,
    load_posts (Some (PList items)) = Ok posts
    ∧ List.filter (has_timestamp n) posts
      = List.filter (has_timestamp n) parsed.
Proof.
  intros Hparsed Hints.
  destruct (sort_reverse_int post_timestamp parsed Hints) as [posts Hsort].
  exists posts. split; [|by apply sort_reverse_filter].
  unfold load_posts. simpl. destruct items as [|item items].
  - inversion Hparsed; subst. simpl in Hsort. by injection Hsort as <-.
  - simpl negb. cbn [py_iter load_json bind].
    by rewrite (parse_posts_all _ _ [] Hparsed).
Qed.

Lemma load_posts_stable_witness :
  ∃ posts,
    load_posts (Some tied_posts_file) = Ok posts
    ∧ List.filter (has_timestamp 3) posts
      = List.filter (has_timestamp 3)
          [titled_post 3 (str "a"); titled_post 8 []; titled_post 3 (str "b")].
Proof.
  refine (load_posts_stable
            [PDict [(str "timestamp", PInt 3); (str "title", PStr (str "a"))];
             PDict [(str "timestamp", PInt 8)];
             PDict [(str "timestamp", PInt 3); (str "title", PStr (str "b"))]]
            [titled_post 3 (str "a"); titled_post 8 []; titled_post 3 (str "b")]
            3 _ _).
  - repeat constructor.
  - constructor; [by eexists|]. constructor; [by eexists|].
    constructor; [by eexists|]. constructor.
Defined.

(** The posts of the witness come back with the two posts of timestamp 3
    in file order. *)
Example load_posts_tied :
  load_posts (Some tied_posts_file)
  = Ok [titled_post 8 []; titled_post 3 (str "a"); titled_post 3 (str "b")].
Proof. reflexivity. Qed.

(** X10. [load_posts] returns only for a file that is missing, unreadable
    or holds a falsy value, for which the result is empty, and for a file
    that holds an array of objects. Any other contents, such as a single
    object, make it raise. *)
Theorem load_posts_shape (file : option pyval) (posts : list post) :
  load_posts file = Ok posts ->
  (truthy (load_json file) = false ∧ posts = [])
  ∨ (∃ items, load_json file = PList items
              ∧ Forall (fun item => is_dict item = true) items).
Proof.
  intros Hload. destruct (truthy (load_json file)) eqn:Ht.
  - right.
    destruct (load_posts_inv _ _ Hload Ht) as (items & parsed & Hi & Hp & _).
    assert (Forall (fun item => is_dict item = true) items) as Hdicts.
    { clear Hi. induction Hp as [|item p items parsed H _ IH]; [done|].
      constructor; [by eapply parse_post_is_dict|done]. }
    destruct (load_json file) as [| | |s|l|d|]; try done.
    + exfalso. simpl in Hi. injection Hi as <-.
      destruct s as [|c s]; [done|]. by inversion Hdicts.
    + simpl in Hi. injection Hi as ->. by exists items.
    + exfalso. simpl in Hi. injection Hi as <-.
      destruct d as [|kv d]; [done|]. by inversion Hdicts.
  - left. split; [done|]. unfold load_posts in Hload. rewrite Ht in Hload.
    by injection Hload as <-.
Qed.

Lemma load_posts_shape_witness :
  load_posts (Some (PDict [(str "timestamp", PInt 5)])) = Raise AttributeError
  ∧ load_posts None = Ok []
  ∧ ((truthy (load_json (Some tied_posts_file)) = false
      ∧ [titled_post 8 []; titled_post 3 (str "a"); titled_post 3 (str "b")] = [])
     ∨ (∃ items, load_json (Some tied_posts_file) = PList items
                 ∧ Forall (fun item => is_dict item = true) items)).
Proof.
  split; [reflexivity|]. split; [reflexivity|].
  exact (load_posts_shape (Some tied_posts_file) _ eq_refl).
Defined.

(** X11. The text of a post is the decoded [post] of the first [data]
    entry that has the key; the entries behind it are not looked at, so an
    ill-formed one among them does no harm. Without such an entry the text
    is empty. *)
Theorem extract_text_first (pre rest : list pyval)
    (items : list (pystr * pyval)) (v : pyval) :
  Forall (fun d => py_contains (str "post") d = Ok false) pre ->
  (dict_lookup (str "post") items = Some v ->
   extract_text (pre ++ PDict items :: rest) = decode_facebook_text v)
  ∧ extract_text pre = Ok [].
Proof.
  induction 1 as [|d pre Hd _ [IH1 IH2]]; simpl.
  - split; [|done]. intros Hv. rewrite Hv.
    rewrite bool_decide_eq_true_2 by done. done.
  - rewrite Hd. simpl. by split.
Qed.

Lemma extract_text_first_witness :
  extract_text sample_data_entries = Ok (str "first")
  ∧ extract_text [PDict [(str "place", PStr (str "here"))]] = Ok [].
Proof.
  assert (Forall (fun d => py_contains (str "post") d = Ok false)
            [PDict [(str "place", PStr (str "here"))]]) as H.
  { by repeat constructor. }
  split.
  - exact (proj1 (extract_text_first _ [PDict [(str "post", PInt 4)]]
                    [(str "post", PStr (str "first"))] _ H) eq_refl).
  - exact (proj2 (extract_text_first _ [] [] PNone H)).
Defined.

(** ** Albums *)

Lemma parse_photos_fields ps photos result :
  parse_photos ps photos = Ok result ->
  ∃ new, result = photos ++ new
    ∧ Forall2 (fun j p =>
        py_get j (str "uri") PNone = Ok (photo_uri p)
        ∧ py_get j (str "creation_timestamp") (PInt 0) = Ok (photo_timestamp p)
        ∧ ∃ raw, py_get j (str "description") (PStr []) = Ok raw
                 ∧ decode_facebook_text raw = Ok (photo_description p)) ps new.
Proof.
  revert photos. induction ps as [|j ps IH]; intros photos; simpl.
  { intros [= <-]. exists []. by rewrite app_nil_r. }
  destruct (py_get j (str "uri") PNone) as [uri|] eqn:Huri; simpl; [|done].
  destruct (py_get j (str "description") (PStr [])) as [raw|] eqn:Hraw;
    simpl; [|done].
  destruct (decode_facebook_text raw) as [desc|] eqn:Hdesc; simpl; [|done].
  destruct (py_get j (str "creation_timestamp") (PInt 0)) as [ts|] eqn:Hts;
    simpl; [|done].
  intros (new & -> & Hnew)%IH. eexists (_ :: new).
  split; [by rewrite <- app_assoc|]. constructor; [|done]. simpl.
  split; [done|]. split; [done|]. by exists raw.
Qed.

(** X12. The photos of an album are those of the file, one for each entry
    and in the order of the file, each with the [uri], the creation
    timestamp (0 when absent) and the decoded description of its entry. *)
Theorem parse_album_photos (d : list (pystr * pyval)) (a : album) :
  parse_album (PDict d) = Ok a ->
  Forall2 (fun j p =>
      py_get j (str "uri") PNone = Ok (photo_uri p)
      ∧ py_get j (str "creation_timestamp") (PInt 0) = Ok (photo_timestamp p)
      ∧ ∃ raw, py_get j (str "description") (PStr []) = Ok raw
               ∧ decode_facebook_text raw = Ok (photo_description p))
    (items_of (default (PList []) (dict_lookup (str "photos") d)))
    (album_photos a).
Proof.
  unfold parse_album, items_of. simpl. do 2 step_bind.
  destruct (py_iter (default (PList []) (dict_lookup (str "photos") d)))
    as [ps|] eqn:Hps; simpl; [|done].
  destruct (parse_photos ps []) as [photos|] eqn:Hph; simpl; [|done].
  apply parse_photos_fields in Hph as (new & -> & Hnew).
  step_bind. by intros [= <-].
Qed.

Lemma parse_album_photos_witness :
  parse_album covered_album_file = Ok covered_album
  ∧ Forall2 (fun j p =>
      py_get j (str "uri") PNone = Ok (photo_uri p)
      ∧ py_get j (str "creation_timestamp") (PInt 0) = Ok (photo_timestamp p)
      ∧ ∃ raw, py_get j (str "description") (PStr []) = Ok raw
               ∧ decode_facebook_text raw = Ok (photo_description p))
    [PDict [(str "uri", PStr (str "photos/a.jpg"))]]
    (album_photos covered_album).
Proof.
  split; [reflexivity|].
  exact (parse_album_photos covered_album_items covered_album eq_refl).
Defined.

Lemma load_album_files_kept files albums result :
  load_album_files files albums = Ok result ->
  result = albums ++ omap kept_album files.
Proof.
  revert albums. induction files as [|file files IH]; intros albums; simpl.
  { intros [= <-]. by rewrite app_nil_r. }
  unfold kept_album at 1.
  destruct (truthy (load_json file)); simpl; [|by apply IH].
  destruct (parse_album (load_json file)) as [a|]; simpl; [|done].
  destruct (album_photos a); [by apply IH|].
  intros ->%IH. by rewrite <- app_assoc.
Qed.

(** X13. The albums come in the order of their files, one for each file
    whose contents are truthy and whose album has a photo. *)
Theorem load_albums_order (files : list (option pyval)) (albums : list album) :
  load_albums (Some files) = Ok albums -> albums = omap kept_album files.
Proof. simpl. by intros ->%load_album_files_kept. Qed.

Lemma load_albums_order_witness :
  load_albums (Some [Some empty_album_file; Some covered_album_file; None;
                     Some sample_album_file])
  = Ok [covered_album; sample_album]
  ∧ [covered_album; sample_album]
    = omap kept_album [Some empty_album_file; Some covered_album_file; None;
                       Some sample_album_file].
Proof.
  split; [reflexivity|].
  exact (load_albums_order
           [Some empty_album_file; Some covered_album_file; None;
            Some sample_album_file] [covered_album; sample_album] eq_refl).
Defined.

(** ** Album pages *)

Lemma replace_char_absent old new s :
  Forall (fun x => x ≠ old) s -> replace_char old new s = s.
Proof.
  induction 1 as [|c s Hc _ IH]; [done|].
  simpl. rewrite IH. by rewrite (proj2 (Z.eqb_neq c old)).
Qed.

Lemma photo_caption_plain ph :
  replace_char 39 [92; 39] (photo_caption ph) = photo_caption ph.
Proof.
  apply replace_char_absent. unfold photo_caption.
  destruct (photo_description ph); [constructor|].
  eapply Forall_impl; [apply html_escape_chars|]. by intros x (_ & _ & _ & ?).
Qed.

(** X14. On an album page the caption handed to the lightbox is the very
    text of the [alt] caption: the escaped description, which holds no
    apostrophe, so that the replacement of line 717 never finds one. *)
Theorem album_photos_html_caption (ph : photo) (s : pystr)
    (rest : list photo) (html : pystr) :
  photo_uri ph = PStr s -> s ≠ [] ->
  album_photos_html (ph :: rest) html
  = album_photos_html rest
      (html ++ photo_item (str "media/" ++ path_name s)
                 (photo_caption ph) (photo_caption ph))
  ∧ Forall (fun x => x ≠ 39 ∧ x ≠ 34) (photo_caption ph).
Proof.
  intros Huri Hs. split.
  - simpl. rewrite Huri. unfold get_media_path. simpl.
    rewrite bool_decide_eq_false_2 by done. simpl.
    assert ((if negb (bool_decide (photo_description ph = []))
             then html_escape (photo_description ph) else [])
            = photo_caption ph) as ->.
    { unfold photo_caption. by destruct (photo_description ph). }
    by rewrite photo_caption_plain.
  - unfold photo_caption. destruct (photo_description ph); [constructor|].
    eapply Forall_impl; [apply html_escape_chars|]. by intros x (_ & _ & ? & ?).
Qed.

Lemma album_photos_html_caption_witness :
  photo_caption sample_photo = str "Ray&#x27;s desk"
  ∧ album_photos_html [sample_photo] []
    = Ok (photo_item (str "media/a.jpg") (str "Ray&#x27;s desk")
            (str "Ray&#x27;s desk")).
Proof.
  split; [reflexivity|].
  exact (proj1 (album_photos_html_caption sample_photo (str "photos/a.jpg")
                  [] [] eq_refl ltac:(discriminate))).
Defined.

Lemma str_inj s t : str s = str t -> s = t.
Proof.
  unfold str. intros H.
  rewrite <- (String.string_of_list_ascii_of_string s),
          <- (String.string_of_list_ascii_of_string t).
  f_equal. revert H.
  generalize (String.list_ascii_of_string s) (String.list_ascii_of_string t).
  intros l. induction l as [|a l IH]; intros [|b k]; simpl; try done.
  intros [= Hab Hlk]. f_equal; [|by apply IH].
  apply N2Z.inj in Hab.
  rewrite <- (Ascii.ascii_N_embedding a), <- (Ascii.ascii_N_embedding b).
  by rewrite Hab.
Qed.

(** X15. The album pages are written to as many files as there are albums,
    with names that differ from each other: no page overwrites another. *)
Theorem album_pages_names (albums : list album) :
  NoDup (album_pages albums).*1
  ∧ length (album_pages albums) = length albums.
Proof.
  unfold album_pages. split; [|by rewrite length_imap].
  apply NoDup_alt. intros i j name Hi Hj.
  rewrite list_lookup_fmap, list_lookup_imap in Hi, Hj.
  destruct (albums !! i) as [a|]; [|done].
  destruct (albums !! j) as [b|]; [|done].
  simpl in Hi, Hj. injection Hi as <-. injection Hj as Hj.
  apply app_inv_tail, str_inj in Hj.
  symmetry. by apply (inj pretty).
Qed.

Lemma cover_path_of_album a :
  album_cover a = PNone ∨ (∃ s, album_cover a = PStr s) ->
  (if truthy (album_cover a)
   then (let* path := get_media_path (album_cover a) in Ok (format_path path))
   else Ok (str "media/placeholder.jpg"))
  = Ok (cover_src a).
Proof.
  unfold cover_src. intros [->|[s ->]]; [done|].
  destruct s as [|c s]; [done|]. by simpl.
Qed.

Lemma photos_page_albums_html_from i albums html :
  Forall (fun a => album_cover a = PNone ∨ ∃ s, album_cover a = PStr s) albums ->
  photos_page_albums_html i albums html
  = Ok (html
        ++ (imap (fun k a => (str "album-" ++ str (pretty (i + k)%nat)
                              ++ str ".html", a)) albums
            ≫= card_of)).
Proof.
  intros Hall. revert i html.
  induction Hall as [|a albums Ha _ IH]; intros i html.
  { simpl. by rewrite app_nil_r. }
  cbn [photos_page_albums_html]. rewrite (cover_path_of_album a Ha).
  cbn [bind]. rewrite IH, imap_cons, bind_cons, <- app_assoc.
  rewrite Nat.add_0_r. do 3 f_equal.
  f_equal. apply imap_ext. intros k b _. simpl. by rewrite Nat.add_succ_r.
Qed.

(** X16. The photos page has one card for each album page that is written,
    in the same order, and the card links to the file its album page is
    written to. This holds when every cover is a string or absent;
    the image of the card is then the resolved cover, or the placeholder
    for an absent or empty cover. *)
Theorem photos_page_cards (albums : list album) :
  Forall (fun a => album_cover a = PNone ∨ ∃ s, album_cover a = PStr s) albums ->
  photos_page_albums_html 0 albums [] = Ok (album_pages albums ≫= card_of).
Proof.
  intros Hall. by rewrite photos_page_albums_html_from.
Qed.

Lemma photos_page_cards_witness :
  album_pages [covered_album; sample_album]
  = [(str "album-0.html", covered_album); (str "album-1.html", sample_album)]
  ∧ photos_page_albums_html 0 [covered_album; sample_album] []
    = Ok (album_card (str "album-0.html") (str "media/c.jpg")
            (str "Untitled Album") (str "1")
          ++ album_card (str "album-1.html") (str "media/a.jpg")
               (str "Untitled Album") (str "1")).
Proof.
  split; [reflexivity|].
  refine (photos_page_cards [covered_album; sample_album] _).
  constructor; [right; by eexists|]. constructor; [right; by eexists|].
  constructor.
Defined.

(** ** Copying media *)

Lemma copy_files_app (a b : list (pystr * list Z))
    (output : gmap pystr (list Z)) copied :
  copy_files (a ++ b) output copied
  = copy_files b (copy_files a output copied).1 (copy_files a output copied).2.
Proof.
  revert output copied.
  induction a as [|[file contents] a IH]; intros output copied; simpl; [done|].
  destruct (is_media_file file); [|done]. by destruct (output !! file).
Qed.

(** X17. When several source files have the same name, the output
    directory gets the contents of the first of them in walk order, and
    the later ones are passed over. *)
Theorem copy_media_files_first_wins
    (walk : list (pystr * list (pystr * list Z)))
    (output : option (gmap pystr (list Z)))
    (pre post : list (pystr * list Z)) (file : pystr) (contents : list Z)
    (output' : gmap pystr (list Z)) (copied : list pystr) :
  copy_media_files (Some walk) output = (output', copied) ->
  walk_files walk = pre ++ (file, contents) :: post ->
  is_media_file file = true ->
  default ∅ output !! file = None ->
  (∀ c, (file, c) ∉ pre) ->
  output' !! file = Some contents ∧ file ∈ copied.
Proof.
  unfold copy_media_files. rewrite copy_walk_flat.
  intros Hcopy Hwalk Hmedia Hnone Hpre.
  rewrite Hwalk, copy_files_app in Hcopy.
  destruct (copy_files pre (default ∅ output) []) as [out1 copied1] eqn:H1.
  simpl in Hcopy.
  apply copy_files_spec in H1 as (new1 & -> & _ & Hnew1 & _ & Hfrom1 & _).
  assert (out1 !! file = None) as Hout1.
  { destruct (out1 !! file) as [c|] eqn:Hc; [|done]. exfalso.
    destruct (Hfrom1 file ltac:(by eexists)) as [[? Hsome]|Hin].
    - by rewrite Hnone in Hsome.
    - destruct (Hnew1 file Hin) as (_ & _ & c' & Hc' & _). by apply (Hpre c'). }
  rewrite Hmedia, Hout1 in Hcopy.
  apply copy_files_spec in Hcopy as (new2 & -> & _ & _ & Hkeep & _ & _).
  split.
  - apply Hkeep. by rewrite lookup_insert_eq.
  - apply elem_of_app. left. apply elem_of_app. right.
    apply elem_of_cons. by left.
Qed.

Lemma copy_media_files_first_wins_witness :
  (copy_media_files (Some sample_walk) None).1 !! str "a.jpg" = Some [1; 2]
  ∧ str "a.jpg" ∈ (copy_media_files (Some sample_walk) None).2.
Proof.
  refine (copy_media_files_first_wins sample_walk None []
            [(str "notes.txt", [3]); (str "a.jpg", [4]); (str "B.JPG", [5]);
             (str "c.webp", [6])]
            (str "a.jpg") [1; 2] _ _ (surjective_pairing _)
            eq_refl eq_refl eq_refl _).
  intros c Hin. by apply elem_of_nil in Hin.
Defined.

Lemma endswith_length p s : endswith p s = true -> (length p <= length s)%nat.
Proof.
  unfold endswith. rewrite <- (length_rev p), <- (length_rev s).
  generalize (rev p) (rev s). clear p s.
  intros p. induction p as [|a p IH]; intros [|b s]; simpl; try done; [lia|].
  intros [_ H]%andb_true_iff. apply IH in H. lia.
Qed.

Lemma media_file_name file :
  is_media_file file = true -> file ≠ [] ∧ file ≠ str ".".
Proof.
  unfold is_media_file. intros (suffix & Hin & Hend)%existsb_exists.
  apply endswith_length in Hend.
  assert (4 <= length suffix)%nat as Hlen.
  { unfold media_suffixes in Hin. simpl in Hin.
    repeat (destruct Hin as [<-|Hin]; [simpl; lia|]). done. }
  split; intros ->; simpl in Hend; lia.
Qed.

(** X18. A reference to a media file of the source, whatever directory it
    names, resolves to [media/] and the bare name of the file, and after
    the copy a file of that name is in the output directory. *)
Theorem media_reference_copied
    (walk : list (pystr * list (pystr * list Z)))
    (output : option (gmap pystr (list Z)))
    (output' : gmap pystr (list Z)) (copied : list pystr)
    (dir file : pystr) (contents : list Z) :
  copy_media_files (Some walk) output = (output', copied) ->
  (file, contents) ∈ walk_files walk ->
  is_media_file file = true ->
  47 ∉ file ->
  get_media_path (PStr (dir ++ 47 :: file)) = Ok (Some (str "media/" ++ file))
  ∧ is_Some (output' !! file).
Proof.
  unfold copy_media_files. rewrite copy_walk_flat.
  intros (new & _ & _ & _ & _ & _ & Hall)%copy_files_spec Hin Hmedia Hsep.
  destruct (media_file_name file Hmedia) as [Hne Hdot].
  split; [|by eapply Hall].
  unfold get_media_path. simpl.
  rewrite bool_decide_eq_false_2 by (by destruct dir). simpl.
  by rewrite (proj1 (path_name_last dir file Hsep Hne Hdot)).
Qed.

Lemma media_reference_copied_witness :
  get_media_path (PStr (str "photos_and_videos/album" ++ 47 :: str "c.webp"))
  = Ok (Some (str "media/" ++ str "c.webp"))
  ∧ is_Some ((copy_media_files (Some sample_walk) None).1 !! str "c.webp").
Proof.
  refine (media_reference_copied sample_walk None _ _
            (str "photos_and_videos/album") (str "c.webp") [6]
            (surjective_pairing _) _ eq_refl _).
  - unfold walk_files, sample_walk. simpl.
    repeat first [ by apply list_elem_of_here | apply list_elem_of_further ].
  - exact (bool_decide_unpack (47 ∉ str "c.webp") I).
Defined.

(** ** Rendering posts *)

Lemma post_media_html_from ms html :
  Forall (fun m => media_uri m = PNone ∨ ∃ s, media_uri m = PStr s) ms ->
  post_media_html ms html = Ok (html ++ (ms ≫= media_html_of)).
Proof.
  intros Hall. revert html.
  induction Hall as [|m ms Hm _ IH]; intros html.
  { simpl. by rewrite app_nil_r. }
  cbn [post_media_html]. rewrite bind_cons. unfold media_html_of at 1.
  destruct Hm as [->|[s ->]]; [by rewrite IH|].
  destruct s as [|c s]; [by rewrite IH|].
  unfold get_media_path. simpl. rewrite IH. by rewrite <- app_assoc.
Qed.

(** X19. The media of a post are rendered in their order, one element for
    each reference with a non-empty [uri] and nothing for the others, when
    every [uri] is a string or absent. *)
Theorem post_media_html_order (ms : list media_ref) :
  Forall (fun m => media_uri m = PNone ∨ ∃ s, media_uri m = PStr s) ms ->
  post_media_html ms [] = Ok (ms ≫= media_html_of).
Proof. intros Hall. by rewrite post_media_html_from. Qed.

Lemma post_media_html_order_witness :
  post_media_html
    [sample_media; {| media_uri := PNone; media_description := str "lost" |};
     root_media] []
  = Ok (media_element (str "media/a.jpg") (str "A &amp; B")
        ++ media_element (str "media/") []).
Proof.
  refine (post_media_html_order
            [sample_media;
             {| media_uri := PNone; media_description := str "lost" |};
             root_media] _).
  constructor; [right; by eexists|]. constructor; [by left|].
  constructor; [right; by eexists|]. constructor.
Defined.

(** X20. Rendering a post raises nothing when every media [uri] and the
    external link are strings or absent and the timestamp can be
    formatted; a link that is a truthy value of another kind, such as a
    number, makes it raise [AttributeError]. *)
Theorem generate_post_html_total (strftime_long : pyval -> result pystr)
    (p : post) (profile_pic_path : pystr) :
  Forall (fun m => media_uri m = PNone ∨ ∃ s, media_uri m = PStr s)
    (post_media p) ->
  (∃ date, format_timestamp strftime_long (post_timestamp p) = Ok date) ->
  (post_external_url p = PNone ∨ (∃ s, post_external_url p = PStr s) ->
   ∃ html, generate_post_html strftime_long p profile_pic_path = Ok html)
  ∧ (∀ n, post_external_url p = PInt n -> n ≠ 0 ->
       generate_post_html strftime_long p profile_pic_path
       = Raise AttributeError).
Proof.
  intros Hmedia [date Hdate]. unfold generate_post_html.
  rewrite (post_media_html_from _ [] Hmedia). cbn [bind]. split.
  - intros [->|[s ->]].
    + simpl. rewrite Hdate. simpl. by eexists.
    + unfold post_link_html. destruct (truthy (PStr s)); simpl;
        rewrite Hdate; simpl; by eexists.
  - intros n -> Hn. unfold post_link_html. simpl.
    by rewrite (proj2 (Z.eqb_neq n 0) Hn).
Qed.

Lemma generate_post_html_total_witness :
  (∃ html, generate_post_html (fun _ => Ok (str "January 01, 2015 at 10:00 AM"))
             two_links_post (str "media/me.jpg") = Ok html)
  ∧ generate_post_html (fun _ => Ok (str "January 01, 2015 at 10:00 AM"))
      (bare_post (PInt 0)) (str "media/me.jpg")
    = generate_post_html (fun _ => Raise TypeError)
        (bare_post (PInt 0)) (str "media/me.jpg").
Proof.
  split; [|reflexivity].
  refine (proj1 (generate_post_html_total _ two_links_post (str "media/me.jpg")
                   _ _) _).
  - constructor; [right; by eexists|]. constructor; [right; by eexists|].
    constructor.
  - by eexists.
  - right. by eexists.
Defined.
